(** * The sampler of [server/audio/sampler.py]: mixing, registration and
      the producer/consumer hand-off.

    The Python class [Sampler] keeps a list of currently played sounds,
    mixes one chunk of each per cycle and hands the mixed chunk over, through
    a queue of capacity one, to the thread that writes to the sound card.

    The development has three layers:
    - the objects ([Sound.t], the sampler's attributes) and a small state and
      exception monad in which the methods are written;
    - the methods [remove], [play] (up to its blocking wait), one cycle of
      [next_chunks] and the constructor;
    - the threads ([play] callers, [chunks_producer], [run]) as an executable
      interleaving semantics whose atomic steps are the regions the source
      runs under its lock, or single statements outside of it. *)

From Stdlib Require Import ZArith QArith String.
From stdpp Require Import gmap list strings.

Open Scope Z_scope.

(** ** Objects *)

(** A chunk is an array of samples.  Samples are modelled as exact rationals:
    rounding of the machine floats is outside this development. *)
Definition chunk := list Q.

(** Python objects are compared by identity: a sound is designated by its
    reference, and the objects live in a heap. *)
Definition ref := nat.

Module Sound.

(** Modelled from the spec: the sound class is not part of
    [server/audio/sampler.py]; the sampler only uses its three attributes
    [sr], [playing] (a mutable boolean) and [chunks] (an iterator over a
    finite sequence of chunks, represented by what it has still to yield). *)
Record t := mk { sr : Z; playing : bool; chunks : list chunk }.

Definition set_playing (b : bool) (s : t) : t :=
  {| sr := sr s; playing := b; chunks := chunks s |}.

Definition set_chunks (cs : list chunk) (s : t) : t :=
  {| sr := sr s; playing := playing s; chunks := cs |}.

End Sound.

Inductive exn :=
| ValueError
| NoSuchObject. (* a reference that designates nothing: never raised from
                   a heap that holds every sound in use, see [allocated] *)

Inductive backend := DummyStream | OutputStream.

(** The threads of the program. *)
Inductive thread :=
| PlayThread                (* [self.play_thread], runs [run] *)
| ChunksProducer            (* [t] in [run], runs [chunks_producer] *)
| Caller (i : nat).         (* a thread calling [play] or [remove] *)

Global Instance thread_eq_dec : EqDecision thread.
Proof. solve_decision. Defined.

(** [queue.Queue(maxsize)]: [put] blocks while [maxsize > 0] and the queue
    holds [maxsize] items, [get] takes the oldest item. *)
Record Queue := mkQueue { maxsize : nat; items : list chunk }.

Definition full (q : Queue) : bool :=
  (0 <? maxsize q)%nat && (maxsize q <=? length (items q))%nat.

Definition put (c : chunk) (q : Queue) : option Queue :=
  if full q then None
  else Some {| maxsize := maxsize q; items := items q ++ [c] |}.

Definition get (q : Queue) : option (chunk * Queue) :=
  match items q with
  | [] => None
  | c :: rest => Some (c, {| maxsize := maxsize q; items := rest |})
  end.

(** The attributes of the sampler, together with the heap of sounds.
    [chunk_available] holds the threads waiting on the condition;
    [running] is assigned by [run] only, [false] stands for "not set yet";
    [BackendStream] is [None] until the constructor has chosen one. *)
Record state := mkState {
  sr : Z;
  sounds : list ref;
  chunks : Queue;
  chunk_available : list thread;
  is_done : bool;
  timeout : Z;
  BackendStream : option backend;
  running : bool;
  heap : gmap ref Sound.t
}.

Definition set_sr (v : Z) (st : state) : state :=
  mkState v (sounds st) (chunks st) (chunk_available st) (is_done st)
          (timeout st) (BackendStream st) (running st) (heap st).
Definition set_sounds (v : list ref) (st : state) : state :=
  mkState (sr st) v (chunks st) (chunk_available st) (is_done st)
          (timeout st) (BackendStream st) (running st) (heap st).
Definition set_chunks (v : Queue) (st : state) : state :=
  mkState (sr st) (sounds st) v (chunk_available st) (is_done st)
          (timeout st) (BackendStream st) (running st) (heap st).
Definition set_chunk_available (v : list thread) (st : state) : state :=
  mkState (sr st) (sounds st) (chunks st) v (is_done st)
          (timeout st) (BackendStream st) (running st) (heap st).
Definition set_is_done (v : bool) (st : state) : state :=
  mkState (sr st) (sounds st) (chunks st) (chunk_available st) v
          (timeout st) (BackendStream st) (running st) (heap st).
Definition set_timeout (v : Z) (st : state) : state :=
  mkState (sr st) (sounds st) (chunks st) (chunk_available st) (is_done st)
          v (BackendStream st) (running st) (heap st).
Definition set_BackendStream (v : option backend) (st : state) : state :=
  mkState (sr st) (sounds st) (chunks st) (chunk_available st) (is_done st)
          (timeout st) v (running st) (heap st).
Definition set_running (v : bool) (st : state) : state :=
  mkState (sr st) (sounds st) (chunks st) (chunk_available st) (is_done st)
          (timeout st) (BackendStream st) v (heap st).
Definition set_heap (v : gmap ref Sound.t) (st : state) : state :=
  mkState (sr st) (sounds st) (chunks st) (chunk_available st) (is_done st)
          (timeout st) (BackendStream st) (running st) v.

(** ** A state and exception monad

    A raised exception keeps the state reached so far: what a method has
    assigned before it raises stays assigned. *)
Inductive result (S A : Type) :=
| Ok (a : A) (s : S)
| Raise (e : exn) (s : S).
Arguments Ok {S A} a s.
Arguments Raise {S A} e s.

Definition final {S A} (r : result S A) : S :=
  match r with Ok _ s => s | Raise _ s => s end.

Definition M (S A : Type) : Type := S -> result S A.

Definition ret {S A} (a : A) : M S A := fun s => Ok a s.
Definition raise {S A} (e : exn) : M S A := fun s => Raise e s.
Definition bind {S A B} (m : M S A) (k : A -> M S B) : M S B :=
  fun s => match m s with
           | Ok a s' => k a s'
           | Raise e s' => Raise e s'
           end.
Definition gets {S A} (f : S -> A) : M S A := fun s => Ok (f s) s.
Definition modify {S} (f : S -> S) : M S unit := fun s => Ok tt (f s).

Declare Scope py_scope.
Delimit Scope py_scope with py.
Notation "x <- m ;; k" := (bind m (fun x => k))
  (at level 20, m at level 99, k at level 200, only parsing) : py_scope.
Notation "m ;;; k" := (bind m (fun _ => k))
  (at level 100, k at level 200, only parsing, right associativity) : py_scope.

(** ** The methods *)

(** Attribute access on a sound. *)
Definition sound_of (r : ref) : M state Sound.t := fun st =>
  match heap st !! r with
  | Some s => Ok s st
  | None => Raise NoSuchObject st
  end.

(** [sound.playing = b] *)
Definition assign_playing (r : ref) (b : bool) : M state unit :=
  modify (fun st => set_heap (alter (Sound.set_playing b) r (heap st)) st).

(** [s.playing], as read by the filter of [next_chunks]. *)
Definition is_playing (st : state) (r : ref) : bool :=
  match heap st !! r with
  | Some s => Sound.playing s
  | None => false
  end.

(** [list.remove(x)]: deletes the first occurrence, [ValueError] if there is
    none. *)
Fixpoint list_remove (x : ref) (l : list ref) : option (list ref) :=
  match l with
  | [] => None
  | y :: l' =>
      if decide (y = x) then Some l'
      else match list_remove x l' with
           | Some l'' => Some (y :: l'')
           | None => None
           end
  end.

Definition sounds_remove (r : ref) : M state unit := fun st =>
  match list_remove r (sounds st) with
  | Some l => Ok tt (set_sounds l st)
  | None => Raise ValueError st
  end.

(** [remove], lines 70-74; the whole body runs under the lock, which an
    exception releases. *)
Definition remove (sound : ref) : M state unit :=
  (assign_playing sound false ;;;
   sounds_remove sound)%py.

(** [Condition.notify()]: wakes the thread that waits longest, if any. *)
Definition notify : M state unit :=
  modify (fun st => set_chunk_available (tail (chunk_available st)) st).

(** The statements of [play], lines 56-67, one definition per region that
    is atomic in the source. *)
Definition play_clear : M state unit :=          (* line 56 *)
  modify (set_is_done false).

Definition play_check_sr (sound : ref) : M state unit := (* lines 57-58 *)
  (s <- sound_of sound ;;
   self_sr <- gets sr ;;
   if negb (self_sr =? Sound.sr s) then raise ValueError else ret tt)%py.

Definition play_is_member (sound : ref) : M state bool := (* line 60 *)
  gets (fun st => bool_decide (sound ∈ sounds st)).

Definition play_append (sound : ref) : M state unit := (* lines 63-67 *)
  (modify (fun st => set_sounds (sounds st ++ [sound]) st) ;;;
   assign_playing sound true ;;;
   notify)%py.

(** [play] up to, and without, its final [self.is_done.wait()]. *)
Definition play_register (sound : ref) : M state unit :=
  (play_clear ;;;
   play_check_sr sound ;;;
   b <- play_is_member sound ;;
   (if b then remove sound else ret tt) ;;;
   play_append sound)%py.

(** [numpy.mean(chunks, axis=0)] on a list of arrays of one length: the
    columns are summed and divided by the number of arrays. *)
Definition vadd (a b : chunk) : chunk := zip_with Qplus a b.

Definition numpy_mean (cs : list chunk) : chunk :=
  match cs with
  | [] => []     (* never reached: [next_chunks] leaves its loop with
                    a non-empty list only *)
  | c :: cs' =>
      map (fun x => (x / inject_Z (Z.of_nat (length cs)))%Q)
          (fold_left vadd cs' c)
  end.

(** [next(s.chunks)] *)
Definition next (s : Sound.t) : option (chunk * Sound.t) :=
  match Sound.chunks s with
  | [] => None                                   (* StopIteration *)
  | c :: rest => Some (c, Sound.set_chunks rest s)
  end.

(** The [for] loop of [next_chunks], lines 85-91, over the snapshot
    [playing_sounds]; [acc] is the list [chunks] of the source. *)
Fixpoint pull (playing_sounds : list ref) (acc : list chunk)
  : M state (list chunk) :=
  match playing_sounds with
  | [] => ret acc
  | s :: rest =>
      (obj <- sound_of s ;;
       match next obj with
       | Some (c, obj') =>
           modify (fun st => set_heap (<[s := obj']> (heap st)) st) ;;;
           pull rest (acc ++ [c])
       | None =>
           assign_playing s false ;;;
           sounds_remove s ;;;
           modify (set_is_done true) ;;;
           pull rest acc
       end)%py
  end.

Definition playing_sounds (st : state) : list ref :=
  filter (fun s => is_playing st s = true) (sounds st).

(** One turn of the [while True] loop of [next_chunks], lines 82-94:
    [Some] is the mixed chunk returned at line 98, [None] means that the
    loop goes on to [self.chunk_available.wait()]. *)
Definition next_chunks_cycle : M state (option chunk) :=
  (ps <- gets playing_sounds ;;
   cs <- pull ps [] ;;
   match cs with
   | [] => ret None
   | _ :: _ => ret (Some (numpy_mean cs))
   end)%py.

(** ** The threads *)

(** Where a thread that called [play] or [remove] stands: the number is the
    line of the source it is about to run. *)
Inductive caller_pc :=
| Play56 (sound : ref)      (* self.is_done.clear() *)
| Play57 (sound : ref)      (* if self.sr != sound.sr: raise *)
| Play60 (sound : ref)      (* if sound in self.sounds *)
| Play61 (sound : ref)      (* self.remove(sound) *)
| Play63 (sound : ref)      (* with self.chunk_available: append, notify *)
| Play68 (sound : ref)      (* self.is_done.wait() *)
| Remove72 (sound : ref)    (* the body of remove *)
| Returned
| Raised (e : exn).

(** The thread [t] of [run]: [chunks_producer] with [next_chunks] inlined. *)
Inductive producer_pc :=
| ProdNotStarted
| Prod105                   (* while self.running *)
| Prod80                    (* next_chunks: take the lock, one turn *)
| Prod96                    (* self.chunk_available.wait() *)
| Prod106 (c : chunk)       (* self.chunks.put(c) *)
| ProdExit
| ProdRaised (e : exn).

(** The thread [self.play_thread]: [run]. *)
Inductive run_pc :=
| RunNotStarted
| Run102                    (* self.running = True *)
| Run108                    (* t = Thread(...); t.start() *)
| Run111                    (* with self.BackendStream(...) as stream *)
| Run112                    (* while self.running *)
| Run114                    (* stream.write(self.chunks.get(timeout=...)) *)
| RunExit.                  (* the with block is left, the stream closed *)

Record config := mkConfig {
  sampler : state;
  callers : list caller_pc;      (* thread [Caller i] is at position [i] *)
  producer : producer_pc;
  play_thread : run_pc;
  stream_open : bool;
  written : list chunk           (* what [stream.write] has received *)
}.

Definition set_sampler (v : state) (c : config) : config :=
  mkConfig v (callers c) (producer c) (play_thread c) (stream_open c)
           (written c).
Definition set_callers (v : list caller_pc) (c : config) : config :=
  mkConfig (sampler c) v (producer c) (play_thread c) (stream_open c) (written c).
Definition set_producer (v : producer_pc) (c : config) : config :=
  mkConfig (sampler c) (callers c) v (play_thread c) (stream_open c) (written c).
Definition set_play_thread (v : run_pc) (c : config) : config :=
  mkConfig (sampler c) (callers c) (producer c) v (stream_open c) (written c).
Definition set_stream_open (v : bool) (c : config) : config :=
  mkConfig (sampler c) (callers c) (producer c) (play_thread c) v (written c).
Definition set_written (v : list chunk) (c : config) : config :=
  mkConfig (sampler c) (callers c) (producer c) (play_thread c) (stream_open c) v.

Definition on_st (f : state -> state) : M config unit :=
  modify (fun c => set_sampler (f (sampler c)) c).

(** The object before its constructor has run: no attribute is meaningful
    yet and no thread exists; [h] holds the sounds of the program. *)
Definition blank (h : gmap ref Sound.t) : config :=
  mkConfig (mkState 0 [] (mkQueue 0 []) [] false 0 None false h)
           [] ProdNotStarted RunNotStarted false [].

(** [Sampler.__init__], lines 20-40. *)
Definition Sampler_init (sr_ : Z) (backend_ : string) (timeout_ : Z)
  : M config unit :=
  (on_st (set_sr sr_) ;;;
   on_st (set_sounds []) ;;;
   on_st (set_chunks (mkQueue 1 [])) ;;;
   on_st (set_chunk_available []) ;;;
   on_st (set_is_done false) ;;;
   on_st (set_timeout timeout_) ;;;
   (if String.eqb backend_ "dummy" then
      on_st (set_BackendStream (Some DummyStream))
    else if String.eqb backend_ "sounddevice" then
      on_st (set_BackendStream (Some OutputStream))
    else raise ValueError) ;;;
   (* self.play_thread.start() *)
   modify (set_play_thread Run102))%py.

(** What a statement leaves a caller with. *)
Definition after {A} (r : result state A) (k : A -> caller_pc)
  : caller_pc * state :=
  match r with
  | Ok a s => (k a, s)
  | Raise e s => (Raised e, s)
  end.

(** One atomic step of a caller; [None]: the thread cannot move.
    [Event.wait] lets the caller through when the flag is set. *)
Definition caller_step (pc : caller_pc) (s : state)
  : option (caller_pc * state) :=
  match pc with
  | Play56 r => Some (after (play_clear s) (fun _ => Play57 r))
  | Play57 r => Some (after (play_check_sr r s) (fun _ => Play60 r))
  | Play60 r =>
      Some (after (play_is_member r s)
                  (fun b : bool => if b then Play61 r else Play63 r))
  | Play61 r => Some (after (remove r s) (fun _ => Play63 r))
  | Play63 r => Some (after (play_append r s) (fun _ => Play68 r))
  | Play68 r => if is_done s then Some (Returned, s) else None
  | Remove72 r => Some (after (remove r s) (fun _ => Returned))
  | Returned => None
  | Raised _ => None
  end.

(** One atomic step of [chunks_producer]. *)
Definition producer_step (pc : producer_pc) (s : state)
  : option (producer_pc * state) :=
  match pc with
  | ProdNotStarted => None
  | Prod105 => Some (if running s then Prod80 else ProdExit, s)
  | Prod80 =>
      match next_chunks_cycle s with
      | Ok (Some c) s' => Some (Prod106 c, s')
      | Ok None s' =>
          Some (Prod96,
                set_chunk_available (chunk_available s' ++ [ChunksProducer]) s')
      | Raise e s' => Some (ProdRaised e, s')
      end
  | Prod96 =>
      if decide (ChunksProducer ∈ chunk_available s) then None
      else Some (Prod80, s)
  | Prod106 c =>
      match put c (chunks s) with
      | Some q => Some (Prod105, set_chunks q s)
      | None => None
      end
  | ProdExit => None
  | ProdRaised _ => None
  end.

(** One atomic step of [run]; at line 114 with an empty queue the thread
    waits, and [run_timeout] is what happens when the wait expires. *)
Definition run_step (c : config) : option config :=
  match play_thread c with
  | RunNotStarted => None
  | Run102 =>
      Some (set_play_thread Run108 (set_sampler (set_running true (sampler c)) c))
  | Run108 => Some (set_play_thread Run111 (set_producer Prod105 c))
  | Run111 => Some (set_play_thread Run112 (set_stream_open true c))
  | Run112 =>
      if running (sampler c) then Some (set_play_thread Run114 c)
      else Some (set_play_thread RunExit (set_stream_open false c))
  | Run114 =>
      match get (chunks (sampler c)) with
      | Some (x, q) =>
          Some (set_play_thread Run112
                  (set_written (written c ++ [x])
                     (set_sampler (set_chunks q (sampler c)) c)))
      | None => None
      end
  | RunExit => None
  end.

Definition run_timeout (c : config) : option config :=
  match play_thread c, get (chunks (sampler c)) with
  | Run114, None =>                                    (* except Empty *)
      Some (set_play_thread Run112 (set_sampler (set_running false (sampler c)) c))
  | _, _ => None
  end.

Inductive action :=
| CallPlay (sound : ref)     (* a new thread calls play(sound) *)
| CallRemove (sound : ref)   (* a new thread calls remove(sound) *)
| Step (t : thread)          (* the thread runs its next atomic step *)
| Expire.                   (* the get of line 114 times out *)

Definition step (a : action) (c : config) : option config :=
  match a with
  | CallPlay r => Some (set_callers (callers c ++ [Play56 r]) c)
  | CallRemove r => Some (set_callers (callers c ++ [Remove72 r]) c)
  | Step (Caller i) =>
      match callers c !! i with
      | Some pc =>
          match caller_step pc (sampler c) with
          | Some (pc', s') =>
              Some (set_callers (<[i := pc']> (callers c)) (set_sampler s' c))
          | None => None
          end
      | None => None
      end
  | Step ChunksProducer =>
      match producer_step (producer c) (sampler c) with
      | Some (pc', s') => Some (set_producer pc' (set_sampler s' c))
      | None => None
      end
  | Step PlayThread => run_step c
  | Expire => run_timeout c
  end.

(** A schedule is run action by action; it fails when it asks a thread
    that cannot move to move. *)
Fixpoint exec (sched : list action) (c : config) : option config :=
  match sched with
  | [] => Some c
  | a :: sched' =>
      match step a c with
      | Some c' => exec sched' c'
      | None => None
      end
  end.

(** ** States, predicates and schedules used by the statements *)

(** The state after [sound.playing = False]. *)
Definition stopped (sound : ref) (st : state) : state :=
  set_heap (alter (Sound.set_playing false) sound (heap st)) st.

(** [n] chunks of two samples of value [v]. *)
Definition tone (v : Z) (n : nat) : list chunk :=
  repeat [inject_Z v; inject_Z v] n.

(** A sampler at 8000 Hz right after a sound has been played to its end:
    nothing registered, the completion event set. *)
Definition idle (h : gmap ref Sound.t) : state :=
  mkState 8000 [] (mkQueue 1 []) [ChunksProducer] true 1 (Some DummyStream)
          true h.

(** The sounds of the examples: 0 and 1 at the sampler's rate, 2 at another
    rate, 3 a sound of a single chunk. *)
Definition fresh_sounds : gmap ref Sound.t :=
  <[0%nat := Sound.mk 8000 false (tone 1 5)]>
    (<[1%nat := Sound.mk 8000 false (tone 3 2)]>
       (<[2%nat := Sound.mk 44100 true (tone 7 1)]>
          (<[3%nat := Sound.mk 8000 false (tone 5 1)]> ∅))).

(** The same sounds once sound 3 has been played to its end. *)
Definition two_sounds : gmap ref Sound.t :=
  <[3%nat := Sound.mk 8000 false []]> fresh_sounds.

(** The state after [next(s.chunks)] has yielded a chunk and left [more]. *)
Definition advanced (s : ref) (obj : Sound.t) (more : list chunk)
  (st : state) : state :=
  set_heap (<[s := Sound.set_chunks more obj]> (heap st)) st.

(** The state after the [except StopIteration] branch, lines 89-91, where
    [l] is the list without [s]. *)
Definition exhausted (s : ref) (l : list ref) (st : state) : state :=
  set_is_done true (set_sounds l (stopped s st)).

(** The state after lines 63-67 of [play]. *)
Definition appended (sound : ref) (st : state) : state :=
  set_chunk_available (tail (chunk_available st))
    (set_heap (alter (Sound.set_playing true) sound (heap st))
       (set_sounds (sounds st ++ [sound]) st)).


(** Sounds 0 and 1 registered and playing, nothing pulled yet. *)
Definition playing_two : gmap ref Sound.t :=
  <[0%nat := Sound.mk 8000 true (tone 1 5)]>
    (<[1%nat := Sound.mk 8000 true (tone 3 2)]> fresh_sounds).

(** A sampler in the middle of a mix of sounds 0 and 1. *)
Definition mixing : state :=
  mkState 8000 [0%nat; 1%nat] (mkQueue 1 []) [] false 1 (Some DummyStream)
          true playing_two.

(** A sound is ready with [c] when [c] is what [next(s.chunks)] yields. *)
Definition ready (st : state) (r : ref) (c : chunk) : Prop :=
  exists obj, heap st !! r = Some obj /\ head (Sound.chunks obj) = Some c.

(** The sum of the samples of index [i]. *)
Definition col_sum (cs : list chunk) (i : nat) : Q :=
  fold_right (fun c acc => (nth i c 0 + acc)%Q) 0%Q cs.

(** The methods on sounds never touch the queue, the [running] flag or the
    configuration of the sampler. *)
Definition same_device (st st' : state) : Prop :=
  chunks st' = chunks st /\ running st' = running st /\ sr st' = sr st /\
  timeout st' = timeout st /\ BackendStream st' = BackendStream st.

(** A configuration reached from a successfully constructed sampler by some
    schedule of the threads, callers included. *)
Definition constructed (c : config) : Prop :=
  exists sr_ backend_ timeout_ h,
    Sampler_init sr_ backend_ timeout_ (blank h) = Ok tt c.

(** What the threads can reach from there. *)
Definition reachable (c : config) : Prop :=
  exists c0 sched, constructed c0 /\ exec sched c0 = Some c.

(** The queue is the one the constructor made and holds at most one item. *)
Definition capacity_one (q : Queue) : Prop :=
  maxsize q = 1%nat /\ (length (items q) <= 1)%nat.

(** A sampler constructed at 8000 Hz over the dummy backend. *)
Definition booted : config :=
  final (Sampler_init 8000 "dummy" 1 (blank fresh_sounds)).

(** The configuration a schedule leads to. *)
Definition run_from (c : config) (sched : list action) : config :=
  match exec sched c with
  | Some c' => c'
  | None => c
  end.

(** [run] up to its loop: the flag set, the producer started, the stream
    open. *)
Definition boot : list action :=
  [Step PlayThread; Step PlayThread; Step PlayThread].

(** [n] steps of one thread. *)
Definition steps (t : thread) (n : nat) : list action := repeat (Step t) n.

(** The producer mixes one chunk and puts it; [run] takes it and writes
    it. *)
Definition produce : list action := steps ChunksProducer 3.

Definition consume : list action := steps PlayThread 2.

(** Sound 3 played to its end by one caller. *)
Definition play_three : list action :=
  boot ++ [CallPlay 3%nat] ++ steps (Caller 0) 4 ++ produce ++ consume
       ++ steps ChunksProducer 2 ++ [Step (Caller 0)].

(** Sound 0 registered, one chunk in the queue, the next one mixed. *)
Definition queue_full : list action :=
  boot ++ [CallPlay 0%nat] ++ steps (Caller 0) 4 ++ produce
       ++ steps ChunksProducer 2.

(** Two callers: the first plays sound 0 (five chunks), the second sound 1
    (two chunks).  Once sound 1 has reached its end the event is set, and
    the first caller gets through its wait. *)
Definition two_callers : list action :=
  boot ++ [CallPlay 0%nat] ++ steps (Caller 0) 4
       ++ [CallPlay 1%nat] ++ steps (Caller 1) 4
       ++ produce ++ consume           (* both sounds, first chunks *)
       ++ produce ++ consume           (* both sounds, second chunks *)
       ++ steps ChunksProducer 2       (* sound 1 is at its end *)
       ++ [Step (Caller 0)].           (* is_done.wait() of play(0) *)



(** No sound is ever played: the producer waits on the condition, [run]
    waits on the queue, and the wait of [run] times out. *)
Definition before_starving : list action :=
  boot ++ steps ChunksProducer 2 ++ [Step PlayThread].

(** ... and the wait has timed out. *)
Definition starving : list action := before_starving ++ [Expire].

(** An action of the threads that exist, as opposed to a new call. *)
Definition of_thread (a : action) : Prop :=
  a = Expire \/ exists t, a = Step t.

(** The producer waits on the condition, nobody is there to notify it and
    [run] is past the point where it starts the producer. *)
Definition blocked_for_good (c : config) : Prop :=
  producer c = Prod96 /\ ChunksProducer ∈ chunk_available (sampler c) /\
  callers c = [] /\
  (play_thread c = Run112 \/ play_thread c = Run114 \/ play_thread c = RunExit).

(** ** Predicates of the further properties *)

(** The chunks on their way to the device, oldest first: what the stream
    has received, then what the queue holds. *)
Definition pipe (c : config) : list chunk :=
  written c ++ items (chunks (sampler c)).




(** Sounds 0 and 1 registered, sound 1 paused by its owner. *)
Definition paused : state := stopped 1%nat mixing.

(** Sounds 0 and 1 registered and playing, sound 1 at its end. *)
Definition ending : state :=
  set_heap (<[1%nat := Sound.mk 8000 true []]> playing_two) mixing.

(** Only [chunks_producer] ever waits on the condition, and it is in the
    waiters' list exactly while it sleeps at line 96 without having been
    notified; [run] starts the producer once. *)
Definition waiters_ok (c : config) : Prop :=
  (chunk_available (sampler c) = [] \/
   (chunk_available (sampler c) = [ChunksProducer] /\ producer c = Prod96)) /\
  (play_thread c = Run102 \/ play_thread c = Run108 ->
   producer c = ProdNotStarted).

(** The sampler booted with no sound registered, the producer about to run
    a turn of [next_chunks]. *)
Definition silent : list action := boot ++ [Step ChunksProducer].

(** ... the producer asleep on the condition, and a caller about to
    register sound 0. *)
Definition about_to_play : list action :=
  silent ++ [Step ChunksProducer; CallPlay 0%nat] ++ steps (Caller 0) 3.




(** A sound that has been played to its end. *)
Definition played_out (st : state) (r : ref) : Prop :=
  exists obj, heap st !! r = Some obj /\
              Sound.playing obj = false /\ Sound.chunks obj = [].


(** A caller whose call is over. *)
Definition finishedb (pc : caller_pc) : bool :=
  match pc with
  | Returned | Raised _ => true
  | _ => false
  end.

(** The client that plays one sound at a time: it calls [play] only when
    its earlier calls are over, and never calls [remove]. *)
Definition allowed (c : config) (a : action) : bool :=
  match a with
  | CallPlay _ => forallb finishedb (callers c)
  | CallRemove _ => false
  | _ => true
  end.

Fixpoint exec_serial (sched : list action) (c : config) : option config :=
  match sched with
  | [] => Some c
  | a :: sched' =>
      if allowed c a then
        match step a c with
        | Some c' => exec_serial sched' c'
        | None => None
        end
      else None
  end.

(** What holds of the sampler while the one call in progress stands at
    [pc]. *)
Definition call_inv (st : state) (pc : caller_pc) : Prop :=
  match pc with
  | Play56 _ => sounds st = []
  | Play57 _ => sounds st = [] /\ is_done st = false
  | Play60 r | Play63 r =>
      sounds st = [] /\ is_done st = false /\ is_Some (heap st !! r)
  | Play68 r =>
      (sounds st = [r] /\ is_playing st r = true /\ is_done st = false) \/
      (sounds st = [] /\ played_out st r)
  | Play61 _ | Remove72 _ => False
  | Returned | Raised _ => sounds st = []
  end.

Definition serial_inv (c : config) : Prop :=
  (callers c = [] /\ sounds (sampler c) = []) \/
  exists done pc,
    callers c = done ++ [pc] /\ forallb finishedb done = true /\
    call_inv (sampler c) pc.

(** Sound 3 played by one caller, up to the last turn of the mixer. *)
Definition play_three_waiting : list action :=
  boot ++ [CallPlay 3%nat] ++ steps (Caller 0) 4 ++ produce ++ consume
       ++ steps ChunksProducer 2.

(** * Properties *)

(** ** [list.remove] *)

Lemma list_remove_None (x : ref) (l : list ref) :
  x ∉ l -> list_remove x l = None.
Proof.
  induction l as [|y l IH]; intros Hx; simpl; [reflexivity|].
  apply not_elem_of_cons in Hx as [Hne Hx].
  destruct (decide (y = x)) as [->|_]; [congruence|].
  now rewrite IH.
Qed.

Lemma list_remove_Some (x : ref) (l : list ref) :
  x ∈ l -> exists l', list_remove x l = Some l'.
Proof.
  induction l as [|y l IH]; intros Hx; simpl.
  - now apply elem_of_nil in Hx.
  - destruct (decide (y = x)) as [->|Hne]; [eauto|].
    apply elem_of_cons in Hx as [->|Hx]; [congruence|].
    destruct (IH Hx) as [l' ->]. eauto.
Qed.

Lemma list_remove_elem_of (x : ref) (l l' : list ref) :
  list_remove x l = Some l' ->
  x ∈ l /\ (forall y, y ∈ l' -> y ∈ l) /\
  (forall y, y <> x -> y ∈ l -> y ∈ l') /\
  length l = S (length l').
Proof.
  revert l'. induction l as [|z l IH]; intros l' H; simpl in H; [discriminate|].
  destruct (decide (z = x)) as [->|Hne].
  - injection H as <-. repeat split.
    + apply elem_of_cons; auto.
    + intros y Hy. apply elem_of_cons; auto.
    + intros y Hy Hin. apply elem_of_cons in Hin as [->|Hin]; [congruence|auto].
  - destruct (list_remove x l) as [l''|] eqn:E; [|discriminate].
    injection H as <-. destruct (IH _ eq_refl) as (Hx & Hsub & Hsup & Hlen).
    repeat split.
    + apply elem_of_cons; auto.
    + intros y Hy. apply elem_of_cons in Hy as [->|Hy];
        apply elem_of_cons; auto.
    + intros y Hy Hin. apply elem_of_cons in Hin as [->|Hin];
        apply elem_of_cons; auto.
    + simpl. now rewrite Hlen.
Qed.

Lemma list_remove_NoDup (x : ref) (l l' : list ref) :
  NoDup l -> list_remove x l = Some l' -> NoDup l' /\ x ∉ l'.
Proof.
  revert l'. induction l as [|z l IH]; intros l' Hnd H; simpl in H;
    [discriminate|].
  apply NoDup_cons in Hnd as [Hz Hnd].
  destruct (decide (z = x)) as [->|Hne].
  - injection H as <-. auto.
  - destruct (list_remove x l) as [l''|] eqn:E; [|discriminate].
    injection H as <-. destruct (IH _ Hnd eq_refl) as [Hnd' Hx].
    split.
    + apply NoDup_cons. split; [|assumption].
      intros Hin. apply Hz. now apply (list_remove_elem_of x l l'').
    + intros Hin. apply elem_of_cons in Hin as [->|Hin]; [congruence|auto].
Qed.

(** ** What [remove] does *)

Lemma remove_spec (sound : ref) (st : state) :
  remove sound st =
  match list_remove sound (sounds st) with
  | Some l => Ok tt (set_sounds l (stopped sound st))
  | None => Raise ValueError (stopped sound st)
  end.
Proof.
  unfold remove, bind, assign_playing, modify, sounds_remove, stopped; simpl.
  now destruct (list_remove sound (sounds st)).
Qed.



(** ** [remove] on a sound that is not registered *)

(** C10: for a sound that is not in [sounds], [remove] raises (the
    [ValueError] of [list.remove]) and the state it leaves behind already has
    the sound's [playing] flag at [False]; the list itself is as before. *)
Theorem remove_absent_raises (sound : ref) (st : state) :
  sound ∉ sounds st ->
  exists st',
    remove sound st = Raise ValueError st' /\
    heap st' !! sound = Sound.set_playing false <$> heap st !! sound /\
    (forall obj, heap st !! sound = Some obj ->
       exists obj', heap st' !! sound = Some obj' /\
                    Sound.playing obj' = false) /\
    sounds st' = sounds st.
Proof.
  intros Hout. exists (stopped sound st).
  rewrite remove_spec, (list_remove_None _ _ Hout).
  assert (Hl : heap (stopped sound st) !! sound
               = Sound.set_playing false <$> heap st !! sound).
  { unfold stopped; simpl. now rewrite lookup_alter_eq. }
  repeat split; try assumption.
  intros obj Hobj. rewrite Hl, Hobj. simpl. eauto.
Qed.

Lemma remove_absent_raises_witness :
  exists st',
    remove 2%nat (idle two_sounds) = Raise ValueError st' /\
    heap st' !! 2%nat
      = Sound.set_playing false <$> heap (idle two_sounds) !! 2%nat /\
    (forall obj, heap (idle two_sounds) !! 2%nat = Some obj ->
       exists obj', heap st' !! 2%nat = Some obj' /\
                    Sound.playing obj' = false) /\
    sounds st' = sounds (idle two_sounds).
Proof.
  apply (remove_absent_raises 2%nat (idle two_sounds)).
  simpl. apply not_elem_of_nil.
Defined.

(** ** [play] with a wrong samplerate *)

Lemma play_register_mismatch (sound : ref) (st : state) (obj : Sound.t) :
  heap st !! sound = Some obj ->
  sr st <> Sound.sr obj ->
  play_register sound st = Raise ValueError (set_is_done false st).
Proof.
  intros Hobj Hsr.
  unfold play_register, bind, play_clear, modify, play_check_sr, bind,
    sound_of, gets; simpl.
  rewrite Hobj; simpl.
  destruct (Z.eqb_spec (sr st) (Sound.sr obj)) as [E|_]; [contradiction|].
  reflexivity.
Qed.

(** C3, as amended: for a sound whose samplerate differs from the sampler's,
    [play] raises at once, before it registers anything or waits; the list
    of sounds, the sounds themselves, the queue, the waiters of the
    condition and all other attributes are as before, except that the
    completion event has been cleared (line 56 runs before the test). *)
Theorem play_mismatch_raises (sound : ref) (st : state) (obj : Sound.t) :
  heap st !! sound = Some obj ->
  sr st <> Sound.sr obj ->
  exists st',
    play_register sound st = Raise ValueError st' /\
    st' = set_is_done false st /\
    sounds st' = sounds st /\ heap st' = heap st /\
    chunks st' = chunks st /\ chunk_available st' = chunk_available st /\
    running st' = running st /\ sr st' = sr st /\
    timeout st' = timeout st /\ BackendStream st' = BackendStream st /\
    is_done st' = false /\
    caller_step (Play56 sound) st = Some (Play57 sound, st') /\
    caller_step (Play57 sound) st' = Some (Raised ValueError, st').
Proof.
  intros Hobj Hsr. exists (set_is_done false st).
  rewrite (play_register_mismatch _ _ _ Hobj Hsr).
  repeat split.
  unfold caller_step, after, play_check_sr, bind, sound_of, gets; simpl.
  rewrite Hobj; simpl.
  destruct (Z.eqb_spec (sr st) (Sound.sr obj)) as [E|_]; [contradiction|].
  reflexivity.
Qed.

Lemma play_mismatch_raises_witness :
  exists st',
    play_register 2%nat (idle two_sounds) = Raise ValueError st' /\
    st' = set_is_done false (idle two_sounds) /\
    sounds st' = sounds (idle two_sounds) /\
    heap st' = heap (idle two_sounds) /\
    chunks st' = chunks (idle two_sounds) /\
    chunk_available st' = chunk_available (idle two_sounds) /\
    running st' = running (idle two_sounds) /\
    sr st' = sr (idle two_sounds) /\
    timeout st' = timeout (idle two_sounds) /\
    BackendStream st' = BackendStream (idle two_sounds) /\
    is_done st' = false /\
    caller_step (Play56 2%nat) (idle two_sounds) = Some (Play57 2%nat, st') /\
    caller_step (Play57 2%nat) st' = Some (Raised ValueError, st').
Proof.
  apply (play_mismatch_raises 2%nat (idle two_sounds)
           (Sound.mk 44100 true (tone 7 1))).
  - reflexivity.
  - simpl. lia.
Defined.

(** The claim C3 as the spec has it (no state mutated) fails: on the idle
    sampler, whose completion event is set, [play] of the 44100 Hz sound
    raises and leaves the event cleared. *)
Lemma play_mismatch_clears_is_done :
  heap (idle two_sounds) !! 2%nat = Some (Sound.mk 44100 true (tone 7 1)) /\
  sr (idle two_sounds) <> 44100 /\
  is_done (idle two_sounds) = true /\
  is_done (final (play_register 2%nat (idle two_sounds))) = false /\
  final (play_register 2%nat (idle two_sounds)) <> idle two_sounds.
Proof.
  repeat split; try reflexivity; try (simpl; lia).
  intros H. apply (f_equal is_done) in H. vm_compute in H. discriminate.
Qed.

(** ** Unfolding the methods *)

Lemma pull_cons (s : ref) (rest : list ref) (acc : list chunk) (st : state) :
  pull (s :: rest) acc st =
  match heap st !! s with
  | None => Raise NoSuchObject st
  | Some obj =>
      match Sound.chunks obj with
      | c :: more => pull rest (acc ++ [c]) (advanced s obj more st)
      | [] =>
          match list_remove s (sounds st) with
          | Some l => pull rest acc (exhausted s l st)
          | None => Raise ValueError (stopped s st)
          end
      end
  end.
Proof.
  cbn [pull]. unfold bind at 1. unfold sound_of.
  destruct (heap st !! s) as [obj|]; [|reflexivity].
  unfold next. destruct (Sound.chunks obj) as [|c more].
  - unfold bind, assign_playing, modify, sounds_remove; simpl.
    fold (stopped s st).
    destruct (list_remove s (sounds st)); reflexivity.
  - reflexivity.
Qed.

Lemma play_append_spec (sound : ref) (st : state) :
  play_append sound st = Ok tt (appended sound st).
Proof. reflexivity. Qed.

Lemma play_register_match (sound : ref) (st : state) (obj : Sound.t) :
  heap st !! sound = Some obj ->
  sr st = Sound.sr obj ->
  play_register sound st =
  if bool_decide (sound ∈ sounds st) then
    match list_remove sound (sounds st) with
    | Some l =>
        Ok tt (appended sound
                 (set_sounds l (stopped sound (set_is_done false st))))
    | None => Raise ValueError (stopped sound (set_is_done false st))
    end
  else Ok tt (appended sound (set_is_done false st)).
Proof.
  intros Hobj Hsr.
  unfold play_register, bind, play_clear, modify, play_check_sr, bind,
    sound_of, gets, play_is_member, gets; simpl.
  rewrite Hobj; simpl. rewrite Hsr, Z.eqb_refl; simpl.
  destruct (bool_decide (sound ∈ sounds st)); [|reflexivity].
  rewrite remove_spec; simpl.
  destruct (list_remove sound (sounds st)); reflexivity.
Qed.


(** ** The invariant of the list of sounds *)









Lemma next_chunks_cycle_final (st : state) :
  final (next_chunks_cycle st) = final (pull (playing_sounds st) [] st).
Proof.
  unfold next_chunks_cycle, bind, gets.
  destruct (pull (playing_sounds st) [] st) as [[|c cs] s'|e s'];
    reflexivity.
Qed.






(** ** Who sets the completion event *)

Lemma set_playing_false_id (obj : Sound.t) :
  Sound.playing obj = false -> Sound.set_playing false obj = obj.
Proof. destruct obj; simpl; now intros ->. Qed.

Lemma pull_keeps_exhausted (ps : list ref) (acc : list chunk) (st : state)
  (r : ref) (obj : Sound.t) :
  heap st !! r = Some obj -> Sound.chunks obj = [] ->
  Sound.playing obj = false ->
  heap (final (pull ps acc st)) !! r = Some obj.
Proof.
  revert acc st. induction ps as [|s rest IH]; intros acc st Hr Hc Hp;
    [exact Hr|].
  rewrite pull_cons.
  assert (Hstop : heap (stopped s st) !! r = Some obj).
  { unfold stopped; simpl. destruct (decide (s = r)) as [->|Hne].
    - rewrite lookup_alter_eq, Hr. simpl. now rewrite set_playing_false_id.
    - now rewrite lookup_alter_ne. }
  destruct (heap st !! s) as [o|] eqn:Hs; [|exact Hr].
  destruct (Sound.chunks o) as [|c more] eqn:Ho.
  - destruct (list_remove s (sounds st)) as [l|]; [|exact Hstop].
    apply IH; auto.
  - apply IH; auto. unfold advanced; simpl.
    rewrite lookup_insert_ne; [exact Hr|]. intros ->. congruence.
Qed.

Lemma pull_is_done (ps : list ref) (acc : list chunk) (st : state) :
  is_done (final (pull ps acc st)) = true ->
  is_done st = true \/
  exists r obj, r ∈ ps /\ heap (final (pull ps acc st)) !! r = Some obj /\
                Sound.chunks obj = [] /\ Sound.playing obj = false.
Proof.
  revert acc st. induction ps as [|s rest IH]; intros acc st; [now left|].
  rewrite pull_cons.
  destruct (heap st !! s) as [o|] eqn:Hs; [|now left].
  destruct (Sound.chunks o) as [|c more] eqn:Ho.
  - destruct (list_remove s (sounds st)) as [l|]; [|now left].
    intros _. right. exists s, (Sound.set_playing false o).
    split; [apply elem_of_cons; auto|]. split; [|split; [exact Ho|reflexivity]].
    apply pull_keeps_exhausted; [|exact Ho|reflexivity].
    unfold exhausted, stopped; simpl. now rewrite lookup_alter_eq, Hs.
  - intros H. destruct (IH _ _ H) as [Hd|(r & obj & Hr & Hobj)].
    + now left.
    + right. exists r, obj. split; [apply elem_of_cons; auto|exact Hobj].
Qed.

Lemma caller_step_is_done pc s pc' s' :
  caller_step pc s = Some (pc', s') ->
  is_done s' = true -> is_done s = true.
Proof.
  destruct pc as [r|r|r|r|r|r|r| |e]; simpl; intros H; try discriminate.
  - injection H as <- <-. simpl. discriminate.
  - unfold play_check_sr, bind, sound_of, gets in H.
    destruct (heap s !! r) as [o|]; simpl in H;
      [destruct (negb (sr s =? Sound.sr o))|];
      injection H as <- <-; auto.
  - injection H as <- <-. auto.
  - rewrite remove_spec in H.
    destruct (list_remove r (sounds s)); injection H as <- <-; auto.
  - injection H as <- <-. auto.
  - destruct (is_done s); [injection H as <- <-; auto|discriminate].
  - rewrite remove_spec in H.
    destruct (list_remove r (sounds s)); injection H as <- <-; auto.
Qed.

Lemma run_step_is_done c c' :
  run_step c = Some c' -> is_done (sampler c') = is_done (sampler c).
Proof.
  unfold run_step.
  destruct (play_thread c); try discriminate;
    try (intros H; injection H as <-; reflexivity).
  - destruct (running (sampler c)); intros H; injection H as <-; reflexivity.
  - destruct (get (chunks (sampler c))) as [[x q]|]; [|discriminate].
    intros H; injection H as <-; reflexivity.
Qed.

Lemma run_timeout_is_done c c' :
  run_timeout c = Some c' -> is_done (sampler c') = is_done (sampler c).
Proof.
  unfold run_timeout.
  destruct (play_thread c); try discriminate.
  destruct (get (chunks (sampler c))); [discriminate|].
  intros H; injection H as <-; reflexivity.
Qed.

(** The event goes from clear to set only in a step of [chunks_producer]
    that runs a turn of [next_chunks], and a sound of the snapshot has then
    been found at the end of its chunks. *)
Lemma is_done_set_by_exhaustion_only (a : action) (c c' : config) :
  step a c = Some c' ->
  is_done (sampler c) = false -> is_done (sampler c') = true ->
  a = Step ChunksProducer /\ producer c = Prod80 /\
  exists r obj, r ∈ playing_sounds (sampler c) /\
                heap (sampler c') !! r = Some obj /\
                Sound.chunks obj = [] /\ Sound.playing obj = false.
Proof.
  intros Hstep Hno Hyes.
  destruct a as [r|r|[| |i]|]; simpl in Hstep.
  - injection Hstep as <-. simpl in Hyes. congruence.
  - injection Hstep as <-. simpl in Hyes. congruence.
  - rewrite (run_step_is_done _ _ Hstep) in Hyes. congruence.
  - split; [reflexivity|].
    destruct (producer c) eqn:Hpc; simpl in Hstep; try discriminate.
    + injection Hstep as <-. simpl in Hyes. congruence.
    + split; [reflexivity|].
      pose proof (next_chunks_cycle_final (sampler c)) as Hfin.
      destruct (next_chunks_cycle (sampler c)) as [[x|] s'|e s'] eqn:Hcyc;
        injection Hstep as <-; simpl in Hyes, Hfin; subst s';
        (destruct (pull_is_done _ _ _ Hyes) as [Hd|Hex];
         [congruence|exact Hex]).
    + destruct (decide (ChunksProducer ∈ chunk_available (sampler c)));
        [discriminate|].
      injection Hstep as <-. simpl in Hyes. congruence.
    + destruct (put c0 (chunks (sampler c))); [|discriminate].
      injection Hstep as <-. simpl in Hyes. congruence.
  - destruct (callers c !! i) as [pc|]; [|discriminate].
    destruct (caller_step pc (sampler c)) as [[pc' s']|] eqn:Hc; [|discriminate].
    injection Hstep as <-. simpl in Hyes.
    pose proof (caller_step_is_done _ _ _ _ Hc Hyes). congruence.
  - rewrite (run_timeout_is_done _ _ Hstep) in Hyes. congruence.
Qed.

(** C9: for a registered sound, [remove] returns normally, takes the sound
    (its first occurrence, hence all of it when registered once) out of the
    list and clears its [playing] flag; the completion event and every
    other attribute, and every other sound, are as before.  Among all the
    steps of all the threads, the event is only ever set by a turn of
    [next_chunks] that found a sound at the end of its chunks. *)
Theorem remove_registered_frame (sound : ref) (st : state) :
  sound ∈ sounds st ->
  (exists l,
     list_remove sound (sounds st) = Some l /\
     remove sound st = Ok tt (set_sounds l (stopped sound st)) /\
     (NoDup (sounds st) -> sound ∉ l) /\
     (forall r, r <> sound -> r ∈ l <-> r ∈ sounds st) /\
     length (sounds st) = S (length l)) /\
  heap (final (remove sound st)) !! sound
    = Sound.set_playing false <$> heap st !! sound /\
  (forall r, r <> sound ->
     heap (final (remove sound st)) !! r = heap st !! r) /\
  is_done (final (remove sound st)) = is_done st /\
  chunks (final (remove sound st)) = chunks st /\
  chunk_available (final (remove sound st)) = chunk_available st /\
  running (final (remove sound st)) = running st /\
  sr (final (remove sound st)) = sr st /\
  timeout (final (remove sound st)) = timeout st /\
  BackendStream (final (remove sound st)) = BackendStream st /\
  (forall a c c',
     step a c = Some c' ->
     is_done (sampler c) = false -> is_done (sampler c') = true ->
     a = Step ChunksProducer /\ producer c = Prod80 /\
     exists r obj, r ∈ playing_sounds (sampler c) /\
                   heap (sampler c') !! r = Some obj /\
                   Sound.chunks obj = [] /\ Sound.playing obj = false).
Proof.
  intros Hin. destruct (list_remove_Some _ _ Hin) as [l Hl].
  destruct (list_remove_elem_of _ _ _ Hl) as (_ & Hsub & Hsup & Hlen).
  rewrite remove_spec, Hl. simpl.
  split; [|repeat split].
  - exists l. repeat split; auto.
    intros Hnd. now destruct (list_remove_NoDup _ _ _ Hnd Hl).
  - now rewrite lookup_alter_eq.
  - intros r Hne. rewrite lookup_alter_ne; congruence.
  - eapply is_done_set_by_exhaustion_only; eassumption.
  - eapply is_done_set_by_exhaustion_only; eassumption.
  - eapply is_done_set_by_exhaustion_only; eassumption.
Qed.

Lemma remove_registered_frame_witness :
  (exists l,
     list_remove 0%nat (sounds mixing) = Some l /\
     remove 0%nat mixing = Ok tt (set_sounds l (stopped 0%nat mixing)) /\
     (NoDup (sounds mixing) -> 0%nat ∉ l) /\
     (forall r, r <> 0%nat -> r ∈ l <-> r ∈ sounds mixing) /\
     length (sounds mixing) = S (length l)) /\
  heap (final (remove 0%nat mixing)) !! 0%nat
    = Sound.set_playing false <$> heap mixing !! 0%nat /\
  (forall r, r <> 0%nat ->
     heap (final (remove 0%nat mixing)) !! r = heap mixing !! r) /\
  is_done (final (remove 0%nat mixing)) = is_done mixing /\
  chunks (final (remove 0%nat mixing)) = chunks mixing /\
  chunk_available (final (remove 0%nat mixing)) = chunk_available mixing /\
  running (final (remove 0%nat mixing)) = running mixing /\
  sr (final (remove 0%nat mixing)) = sr mixing /\
  timeout (final (remove 0%nat mixing)) = timeout mixing /\
  BackendStream (final (remove 0%nat mixing)) = BackendStream mixing /\
  (forall a c c',
     step a c = Some c' ->
     is_done (sampler c) = false -> is_done (sampler c') = true ->
     a = Step ChunksProducer /\ producer c = Prod80 /\
     exists r obj, r ∈ playing_sounds (sampler c) /\
                   heap (sampler c') !! r = Some obj /\
                   Sound.chunks obj = [] /\ Sound.playing obj = false).
Proof.
  apply (remove_registered_frame 0%nat mixing).
  simpl. apply elem_of_cons. now left.
Defined.

(** ** Mixing *)

Lemma ready_advanced (st : state) (s r : ref) obj more c :
  r <> s -> ready st r c -> ready (advanced s obj more st) r c.
Proof.
  intros Hne (o & Ho & Hc). exists o. split; [|exact Hc].
  unfold advanced; simpl. rewrite lookup_insert_ne; congruence.
Qed.

Lemma pull_ready (ps : list ref) :
  forall (acc : list chunk) (st : state) (cs : list chunk),
  NoDup ps ->
  Forall2 (ready st) ps cs ->
  exists st',
    pull ps acc st = Ok (acc ++ cs) st' /\
    sounds st' = sounds st /\ is_done st' = is_done st /\
    (forall r, r ∉ ps -> heap st' !! r = heap st !! r) /\
    (forall r, r ∈ ps -> exists obj,
        heap st !! r = Some obj /\
        heap st' !! r
          = Some (Sound.set_chunks (tail (Sound.chunks obj)) obj)).
Proof.
  induction ps as [|s rest IH]; intros acc st cs Hnd Hall.
  - apply Forall2_nil_inv_l in Hall as ->. exists st.
    rewrite app_nil_r. repeat split; try reflexivity.
    intros r Hr. now apply elem_of_nil in Hr.
  - apply Forall2_cons_inv_l in Hall as (c & cs' & Hc & Hall & ->).
    apply NoDup_cons in Hnd as [Hs Hnd].
    destruct Hc as (obj & Hobj & Hhd).
    rewrite pull_cons, Hobj.
    destruct (Sound.chunks obj) as [|c0 more] eqn:Hch; [discriminate|].
    simpl in Hhd. injection Hhd as ->.
    assert (Hall' : Forall2 (ready (advanced s obj more st)) rest cs').
    { clear -Hall Hs. induction Hall as [|r x rest' cs'' Hr _ IHall];
        constructor.
      - apply ready_advanced; [|exact Hr]. intros ->.
        apply Hs, elem_of_cons. now left.
      - apply IHall. intros Hin. apply Hs, elem_of_cons. now right. }
    destruct (IH (acc ++ [c]) _ cs' Hnd Hall')
      as (st' & Hp & Hso & Hd & Hout & Hin).
    exists st'. rewrite Hp, <- app_assoc. simpl.
    repeat split; try assumption.
    + intros r Hr. apply not_elem_of_cons in Hr as [Hne Hr].
      rewrite (Hout r Hr). unfold advanced; simpl.
      rewrite lookup_insert_ne; congruence.
    + intros r Hr. apply elem_of_cons in Hr as [->|Hr].
      * exists obj. split; [exact Hobj|].
        rewrite (Hout s Hs). unfold advanced; simpl.
        rewrite lookup_insert_eq, Hch. reflexivity.
      * destruct (Hin r Hr) as (o & Ho & Ho'). exists o.
        split; [|exact Ho']. unfold advanced in Ho; simpl in Ho.
        rewrite lookup_insert_ne in Ho; [exact Ho|].
        intros ->. contradiction.
Qed.

Lemma vadd_length (a b : chunk) (n : nat) :
  length a = n -> length b = n -> length (vadd a b) = n.
Proof.
  unfold vadd. revert b n. induction a as [|x a IH]; intros [|y b] n Ha Hb;
    simpl in *; try congruence.
  destruct n as [|n]; [discriminate|]. f_equal. apply IH; congruence.
Qed.

Lemma vadd_nth (a b : chunk) (i : nat) :
  length a = length b ->
  (nth i (vadd a b) 0 == nth i a 0 + nth i b 0)%Q.
Proof.
  unfold vadd. revert b i. induction a as [|x a IH]; intros [|y b] i Hlen;
    simpl in *; try discriminate.
  - destruct i; reflexivity.
  - destruct i as [|i]; [reflexivity|]. apply IH. congruence.
Qed.

Lemma fold_vadd_spec (cs : list chunk) :
  forall (c : chunk) (n : nat),
  length c = n -> Forall (fun x => length x = n) cs ->
  length (fold_left vadd cs c) = n /\
  forall i, (nth i (fold_left vadd cs c) 0 == nth i c 0 + col_sum cs i)%Q.
Proof.
  induction cs as [|d cs IH]; intros c n Hc Hall; simpl.
  - split; [exact Hc|]. intros i. ring.
  - apply Forall_cons in Hall as [Hd Hall].
    destruct (IH (vadd c d) n (vadd_length _ _ _ Hc Hd) Hall) as [Hlen Hnth].
    split; [exact Hlen|]. intros i. rewrite Hnth, vadd_nth by congruence.
    ring.
Qed.

Lemma numpy_mean_spec (cs : list chunk) (n : nat) :
  cs <> [] -> Forall (fun x => length x = n) cs ->
  length (numpy_mean cs) = n /\
  forall i, (i < n)%nat ->
    (nth i (numpy_mean cs) 0
     == col_sum cs i / inject_Z (Z.of_nat (length cs)))%Q.
Proof.
  destruct cs as [|c cs]; [congruence|]. intros _ Hall.
  apply Forall_cons in Hall as [Hc Hall].
  destruct (fold_vadd_spec cs c n Hc Hall) as [Hlen Hnth].
  unfold numpy_mean. rewrite length_map. split; [exact Hlen|].
  intros i Hi.
  set (f := fun x : Q => (x / inject_Z (Z.of_nat (length (c :: cs))))%Q).
  rewrite (nth_indep _ 0%Q (f 0%Q)) by (rewrite length_map; lia).
  rewrite (map_nth f). unfold f. rewrite Hnth. simpl col_sum. reflexivity.
Qed.



(** The first end-to-end scenario of the mix: two sounds of constant value
    1 and 3 give a chunk of constant value 2. *)
Example mix_one_and_three :
  exists st',
    next_chunks_cycle mixing = Ok (Some [4 # 2; 4 # 2]%Q) st' /\
    (4 # 2 == 2)%Q.
Proof. eexists. split; reflexivity. Qed.

(** ** What the methods leave alone *)

Lemma same_device_refl (st : state) : same_device st st.
Proof. repeat split. Qed.

Lemma same_device_trans (a b c : state) :
  same_device a b -> same_device b c -> same_device a c.
Proof.
  unfold same_device. intros (?&?&?&?&?) (?&?&?&?&?).
  repeat split; congruence.
Qed.

Lemma remove_same_device (sound : ref) (st : state) :
  same_device st (final (remove sound st)).
Proof.
  rewrite remove_spec. destruct (list_remove sound (sounds st));
    repeat split.
Qed.

Lemma pull_same_device (ps : list ref) (acc : list chunk) (st : state) :
  same_device st (final (pull ps acc st)).
Proof.
  revert acc st. induction ps as [|s rest IH]; intros acc st;
    [apply same_device_refl|].
  rewrite pull_cons.
  destruct (heap st !! s) as [o|]; [|apply same_device_refl].
  destruct (Sound.chunks o) as [|c more].
  - destruct (list_remove s (sounds st)) as [l|]; [|repeat split].
    eapply same_device_trans; [|apply IH]. repeat split.
  - eapply same_device_trans; [|apply IH]. repeat split.
Qed.

Lemma caller_step_same_device pc s pc' s' :
  caller_step pc s = Some (pc', s') -> same_device s s'.
Proof.
  destruct pc as [r|r|r|r|r|r|r| |e]; simpl; intros H; try discriminate.
  - injection H as <- <-. repeat split.
  - unfold play_check_sr, bind, sound_of, gets in H.
    destruct (heap s !! r) as [o|]; simpl in H;
      [destruct (negb (sr s =? Sound.sr o))|];
      injection H as <- <-; repeat split.
  - injection H as <- <-. repeat split.
  - pose proof (remove_same_device r s) as Hd.
    destruct (remove r s); injection H as <- <-; exact Hd.
  - injection H as <- <-. repeat split.
  - destruct (is_done s); [injection H as <- <-; repeat split|discriminate].
  - pose proof (remove_same_device r s) as Hd.
    destruct (remove r s); injection H as <- <-; exact Hd.
Qed.

Lemma next_chunks_cycle_same_device (st : state) :
  same_device st (final (next_chunks_cycle st)).
Proof. rewrite next_chunks_cycle_final. apply pull_same_device. Qed.

(** ** The constructor *)

Lemma Sampler_init_spec (sr_ : Z) (backend_ : string) (timeout_ : Z)
  (h : gmap ref Sound.t) :
  Sampler_init sr_ backend_ timeout_ (blank h) =
  let attrs b :=
    mkState sr_ [] (mkQueue 1 []) [] false timeout_ b false h in
  if String.eqb backend_ "dummy" then
    Ok tt (mkConfig (attrs (Some DummyStream)) [] ProdNotStarted Run102
                    false [])
  else if String.eqb backend_ "sounddevice" then
    Ok tt (mkConfig (attrs (Some OutputStream)) [] ProdNotStarted Run102
                    false [])
  else
    Raise ValueError (mkConfig (attrs None) [] ProdNotStarted RunNotStarted
                               false []).
Proof.
  unfold Sampler_init, bind, on_st, modify, raise; simpl.
  destruct (String.eqb backend_ "dummy"); [reflexivity|].
  destruct (String.eqb backend_ "sounddevice"); reflexivity.
Qed.

(** C8: with a backend that is neither ['dummy'] nor ['sounddevice'] the
    constructor raises ([ValueError]) before it creates its thread: neither
    [run] nor [chunks_producer] exists afterwards, and no step of theirs
    can ever be taken. *)
Theorem init_unknown_backend_raises (sr_ : Z) (backend_ : string)
  (timeout_ : Z) (h : gmap ref Sound.t) :
  backend_ <> "sounddevice"%string -> backend_ <> "dummy"%string ->
  exists c,
    Sampler_init sr_ backend_ timeout_ (blank h) = Raise ValueError c /\
    play_thread c = RunNotStarted /\ producer c = ProdNotStarted /\
    callers c = [] /\ BackendStream (sampler c) = None /\
    step (Step PlayThread) c = None /\
    step (Step ChunksProducer) c = None /\
    step Expire c = None.
Proof.
  intros Hsd Hdummy. rewrite Sampler_init_spec.
  apply String.eqb_neq in Hsd, Hdummy. rewrite Hsd, Hdummy. simpl.
  eexists. repeat split.
Qed.

Lemma init_unknown_backend_raises_witness :
  exists c,
    Sampler_init 22050 "pyaudio" 1 (blank ∅) = Raise ValueError c /\
    play_thread c = RunNotStarted /\ producer c = ProdNotStarted /\
    callers c = [] /\ BackendStream (sampler c) = None /\
    step (Step PlayThread) c = None /\
    step (Step ChunksProducer) c = None /\
    step Expire c = None.
Proof.
  apply (init_unknown_backend_raises 22050 "pyaudio" 1 ∅); discriminate.
Defined.

(** With one of the two known backends the constructor returns and its
    thread is about to run [run]. *)
Lemma init_known_backend (sr_ : Z) (backend_ : string) (timeout_ : Z)
  (h : gmap ref Sound.t) :
  backend_ = "sounddevice"%string \/ backend_ = "dummy"%string ->
  exists c,
    Sampler_init sr_ backend_ timeout_ (blank h) = Ok tt c /\
    play_thread c = Run102.
Proof.
  rewrite Sampler_init_spec. intros [->| ->]; simpl; eexists; split;
    reflexivity.
Qed.

(** ** The hand-off queue *)

Lemma put_capacity_one (x : chunk) (q q' : Queue) :
  capacity_one q -> put x q = Some q' ->
  capacity_one q' /\ items q = [] /\ items q' = [x].
Proof.
  intros [Hm Hl]. unfold put, full. rewrite Hm. simpl.
  destruct (items q) as [|y l] eqn:Hi; simpl.
  - intros H. injection H as <-. repeat split; simpl; auto.
  - discriminate.
Qed.

Lemma get_capacity_one (x : chunk) (q q' : Queue) :
  capacity_one q -> get q = Some (x, q') ->
  capacity_one q' /\ items q = [x] /\ items q' = [].
Proof.
  intros [Hm Hl]. unfold get.
  destruct (items q) as [|y l] eqn:Hi; [discriminate|].
  intros H. injection H as <- <-. simpl in *.
  assert (l = []) as -> by (destruct l; [reflexivity|simpl in Hl; lia]).
  repeat split; simpl; auto.
Qed.

Lemma step_capacity_one (a : action) (c c' : config) :
  step a c = Some c' ->
  capacity_one (chunks (sampler c)) -> capacity_one (chunks (sampler c')).
Proof.
  intros Hstep Hq.
  destruct a as [r|r|[| |i]|]; simpl in Hstep.
  - injection Hstep as <-. exact Hq.
  - injection Hstep as <-. exact Hq.
  - unfold run_step in Hstep.
    destruct (play_thread c); try discriminate;
      try (injection Hstep as <-; exact Hq).
    + destruct (running (sampler c)); injection Hstep as <-; exact Hq.
    + destruct (get (chunks (sampler c))) as [[x q]|] eqn:Hg; [|discriminate].
      injection Hstep as <-. simpl.
      now destruct (get_capacity_one _ _ _ Hq Hg).
  - destruct (producer c) eqn:Hpc; simpl in Hstep; try discriminate.
    + injection Hstep as <-. exact Hq.
    + pose proof (next_chunks_cycle_same_device (sampler c)) as (Hd & _).
      destruct (next_chunks_cycle (sampler c)) as [[x|] s'|e s'];
        injection Hstep as <-; simpl in *; now rewrite Hd.
    + destruct (decide (ChunksProducer ∈ chunk_available (sampler c)));
        [discriminate|].
      injection Hstep as <-. exact Hq.
    + destruct (put c0 (chunks (sampler c))) as [q|] eqn:Hp; [|discriminate].
      injection Hstep as <-. simpl.
      now destruct (put_capacity_one _ _ _ Hq Hp).
  - destruct (callers c !! i) as [pc|]; [|discriminate].
    destruct (caller_step pc (sampler c)) as [[pc' s']|] eqn:Hc; [|discriminate].
    injection Hstep as <-. simpl.
    destruct (caller_step_same_device _ _ _ _ Hc) as (Hd & _).
    now rewrite Hd.
  - unfold run_timeout in Hstep.
    destruct (play_thread c); try discriminate.
    destruct (get (chunks (sampler c))); [discriminate|].
    injection Hstep as <-. exact Hq.
Qed.

Lemma exec_capacity_one (sched : list action) :
  forall c c', exec sched c = Some c' ->
  capacity_one (chunks (sampler c)) -> capacity_one (chunks (sampler c')).
Proof.
  induction sched as [|a sched IH]; intros c c' H Hq; simpl in H.
  - injection H as <-. exact Hq.
  - destruct (step a c) as [c1|] eqn:Hs; [|discriminate].
    apply (IH c1 c' H). exact (step_capacity_one _ _ _ Hs Hq).
Qed.

Lemma constructed_capacity_one (c : config) :
  constructed c -> capacity_one (chunks (sampler c)).
Proof.
  intros (sr_ & backend_ & timeout_ & h & H).
  rewrite Sampler_init_spec in H. simpl in H.
  destruct (String.eqb backend_ "dummy");
    [|destruct (String.eqb backend_ "sounddevice"); [|discriminate]];
    injection H as <-; split; simpl; lia.
Qed.

(** C7: in every configuration that the threads can reach from a
    constructed sampler, the queue holds at most one chunk.  When it holds
    one, the [put] of [chunks_producer] cannot proceed; the [get] of [run]
    then takes that chunk, writes it to the stream and leaves the queue
    empty, and only then does the [put] go through. *)
Theorem handoff_queue_holds_one (c : config) :
  reachable c ->
  (length (items (chunks (sampler c))) <= 1)%nat /\
  (forall x, producer c = Prod106 x ->
     length (items (chunks (sampler c))) = 1%nat ->
     step (Step ChunksProducer) c = None) /\
  (forall x, producer c = Prod106 x ->
     items (chunks (sampler c)) = [] ->
     exists c', step (Step ChunksProducer) c = Some c' /\
                items (chunks (sampler c')) = [x]) /\
  (forall c', play_thread c = Run114 ->
     step (Step PlayThread) c = Some c' ->
     items (chunks (sampler c')) = [] /\
     written c' = written c ++ items (chunks (sampler c)) /\
     producer c' = producer c).
Proof.
  intros (c0 & sched & Hc0 & Hexec).
  pose proof (exec_capacity_one _ _ _ Hexec (constructed_capacity_one _ Hc0))
    as Hq.
  pose proof Hq as [Hm Hl].
  split; [exact Hl|]. split; [|split].
  - intros x Hpc Hlen. simpl. rewrite Hpc. simpl.
    unfold put, full. rewrite Hm, Hlen. reflexivity.
  - intros x Hpc Hemp. simpl. rewrite Hpc. simpl.
    unfold put, full. rewrite Hm, Hemp. simpl. eexists. split; reflexivity.
  - intros c' Hpc Hstep. simpl in Hstep. unfold run_step in Hstep.
    rewrite Hpc in Hstep.
    destruct (get (chunks (sampler c))) as [[x q]|] eqn:Hg; [|discriminate].
    injection Hstep as <-. simpl.
    destruct (get_capacity_one _ _ _ Hq Hg) as (_ & -> & ->).
    repeat split.
Qed.

(** ** The example schedules *)

Lemma booted_constructed : constructed booted.
Proof. exists 8000, "dummy"%string, 1, fresh_sounds. reflexivity. Defined.

Lemma idle_reached :
  exists c, exec play_three booted = Some c /\
            sampler c = idle two_sounds /\
            callers c = [Returned] /\ producer c = Prod96 /\
            written c = tone 5 1.
Proof. eexists. split; [vm_compute; reflexivity|]. repeat split. Qed.

Lemma queue_full_reachable : reachable (run_from booted queue_full).
Proof.
  exists booted, queue_full. split; [exact booted_constructed|].
  vm_compute. reflexivity.
Defined.

Lemma handoff_queue_holds_one_witness :
  (length (items (chunks (sampler (run_from booted queue_full)))) <= 1)%nat /\
  (forall x, producer (run_from booted queue_full) = Prod106 x ->
     length (items (chunks (sampler (run_from booted queue_full)))) = 1%nat ->
     step (Step ChunksProducer) (run_from booted queue_full) = None) /\
  (forall x, producer (run_from booted queue_full) = Prod106 x ->
     items (chunks (sampler (run_from booted queue_full))) = [] ->
     exists c', step (Step ChunksProducer) (run_from booted queue_full)
                = Some c' /\
                items (chunks (sampler c')) = [x]) /\
  (forall c', play_thread (run_from booted queue_full) = Run114 ->
     step (Step PlayThread) (run_from booted queue_full) = Some c' ->
     items (chunks (sampler c')) = [] /\
     written c' = written (run_from booted queue_full)
                  ++ items (chunks (sampler (run_from booted queue_full))) /\
     producer c' = producer (run_from booted queue_full)).
Proof.
  apply (handoff_queue_holds_one (run_from booted queue_full)).
  exact queue_full_reachable.
Defined.

(** In that configuration the producer is indeed stopped at its [put]. *)
Example queue_full_blocks :
  producer (run_from booted queue_full) = Prod106 [1; 1]%Q /\
  items (chunks (sampler (run_from booted queue_full))) = [[1; 1]%Q] /\
  step (Step ChunksProducer) (run_from booted queue_full) = None.
Proof. repeat split. Qed.

(** The second end-to-end scenario of the mix, through the threads: sound 0
    (value 1, five chunks) and sound 1 (value 3, two chunks) played by two
    callers; the stream receives two chunks of value 2, then three of
    value 1. *)
Example two_sources_scenario :
  exists c,
    exec (boot ++ [CallPlay 0%nat] ++ steps (Caller 0) 4
               ++ [CallPlay 1%nat] ++ steps (Caller 1) 4
               ++ produce ++ consume ++ produce ++ consume
               ++ produce ++ consume ++ produce ++ consume
               ++ produce ++ consume) booted = Some c /\
    written c = [[4 # 2; 4 # 2]; [4 # 2; 4 # 2];
                 [1; 1]; [1; 1]; [1; 1]]%Q /\
    sounds (sampler c) = [0%nat] /\
    is_playing (sampler c) 1%nat = false.
Proof. eexists. split; [vm_compute; reflexivity|]. repeat split. Qed.

(** ** When [play] returns *)

(** C2 fails on the code: with two concurrent calls of [play], the call for
    sound 0 returns when sound 1 has been played, while sound 0 is still
    registered and marked as playing, with two of its five chunks to come. *)
Theorem play_returns_while_playing :
  exists c obj,
    exec two_callers booted = Some c /\
    callers c = [Returned; Play68 1%nat] /\
    sounds (sampler c) = [0%nat] /\
    heap (sampler c) !! 0%nat = Some obj /\
    Sound.sr obj = sr (sampler c) /\
    Sound.playing obj = true /\
    Sound.chunks obj = tone 1 2.
Proof.
  eexists. eexists. split; [vm_compute; reflexivity|]. repeat split.
Qed.

(** With a single caller the wait does its job: the call for sound 3
    cannot return before the sound has reached its end. *)
Example play_waits_single_caller :
  exec (boot ++ [CallPlay 3%nat] ++ steps (Caller 0) 4 ++ produce
          ++ [Step (Caller 0)]) booted = None /\
  exists c, exec play_three booted = Some c /\
            callers c = [Returned] /\ is_playing (sampler c) 3%nat = false.
Proof.
  split; [vm_compute; reflexivity|].
  eexists. split; [vm_compute; reflexivity|]. repeat split.
Qed.

(** ** Playing a sound again *)

(** What [play] does to a sound that is registered: it is taken out of the
    list and put back at its end, and its flag is cleared and set again;
    its iterator [chunks] is what it was. *)
Lemma play_register_registered (sound : ref) (st : state) (obj : Sound.t) :
  heap st !! sound = Some obj ->
  sr st = Sound.sr obj ->
  sound ∈ sounds st ->
  exists l st',
    list_remove sound (sounds st) = Some l /\
    play_register sound st = Ok tt st' /\
    sounds st' = l ++ [sound] /\
    heap st' !! sound = Some (Sound.set_playing true obj) /\
    Sound.chunks (Sound.set_playing true obj) = Sound.chunks obj /\
    is_done st' = false.
Proof.
  intros Hobj Hsr Hin. destruct (list_remove_Some _ _ Hin) as [l Hl].
  rewrite (play_register_match _ _ _ Hobj Hsr), bool_decide_true by exact Hin.
  rewrite Hl. exists l. eexists. split; [reflexivity|].
  split; [reflexivity|]. simpl. repeat split.
  rewrite !lookup_alter_eq, Hobj. reflexivity.
Qed.


(** ** The timeout of the device writer *)

(** Once [running] is [False] and [run] is back at its loop test, the other
    threads leave both as they are. *)
Lemma step_keeps_stopped (a : action) (c c' : config) :
  a <> Step PlayThread ->
  step a c = Some c' ->
  running (sampler c) = false /\ play_thread c = Run112 ->
  running (sampler c') = false /\ play_thread c' = Run112.
Proof.
  intros Ha Hstep [Hr Hp].
  destruct a as [r|r|[| |i]|]; simpl in Hstep.
  - injection Hstep as <-. now split.
  - injection Hstep as <-. now split.
  - congruence.
  - destruct (producer c) eqn:Hpc; simpl in Hstep; try discriminate.
    + injection Hstep as <-. now split.
    + pose proof (next_chunks_cycle_same_device (sampler c)) as (_ & Hd & _).
      destruct (next_chunks_cycle (sampler c)) as [[x|] s'|e s'];
        injection Hstep as <-; simpl in *; split; congruence.
    + destruct (decide (ChunksProducer ∈ chunk_available (sampler c)));
        [discriminate|].
      injection Hstep as <-. now split.
    + destruct (put c0 (chunks (sampler c))) as [q|]; [|discriminate].
      injection Hstep as <-. now split.
  - destruct (callers c !! i) as [pc|]; [|discriminate].
    destruct (caller_step pc (sampler c)) as [[pc' s']|] eqn:Hc; [|discriminate].
    injection Hstep as <-. simpl.
    destruct (caller_step_same_device _ _ _ _ Hc) as (_ & Hd & _).
    split; congruence.
  - unfold run_timeout in Hstep. rewrite Hp in Hstep. discriminate.
Qed.

Lemma exec_keeps_stopped (sched : list action) :
  forall c c',
  Step PlayThread ∉ sched ->
  exec sched c = Some c' ->
  running (sampler c) = false /\ play_thread c = Run112 ->
  running (sampler c') = false /\ play_thread c' = Run112.
Proof.
  induction sched as [|a sched IH]; intros c c' Hno H Hinv; simpl in H.
  - injection H as <-. exact Hinv.
  - apply not_elem_of_cons in Hno as [Ha Hno].
    destruct (step a c) as [c1|] eqn:Hs; [|discriminate].
    apply (IH c1 c' Hno H).
    apply (step_keeps_stopped a c c1); auto.
Qed.

(** C5, as amended: when the [get] of line 114 times out (the queue is
    empty), [running] becomes [False]; no caller is affected, no exception
    reaches any of them.  Whatever the other threads do next, the flag stays
    [False], and the next step of [run] leaves its loop and closes the
    stream, after which [run] has no step left.  [chunks_producer] leaves
    its loop when it next tests the flag at line 105. *)
Theorem get_timeout_stops_writer (c c1 : config) :
  step Expire c = Some c1 ->
  play_thread c = Run114 /\ items (chunks (sampler c)) = [] /\
  running (sampler c1) = false /\
  callers c1 = callers c /\ producer c1 = producer c /\
  forall sched c2,
    Step PlayThread ∉ sched ->
    exec sched c1 = Some c2 ->
    running (sampler c2) = false /\
    (exists c3, step (Step PlayThread) c2 = Some c3 /\
                play_thread c3 = RunExit /\ stream_open c3 = false /\
                step (Step PlayThread) c3 = None /\
                step Expire c3 = None) /\
    (producer c2 = Prod105 ->
     exists c4, step (Step ChunksProducer) c2 = Some c4 /\
                producer c4 = ProdExit /\
                step (Step ChunksProducer) c4 = None).
Proof.
  simpl. unfold run_timeout. intros H.
  destruct (play_thread c) eqn:Hpc; try discriminate.
  destruct (get (chunks (sampler c))) as [|] eqn:Hg; [discriminate|].
  injection H as <-. simpl.
  split; [reflexivity|]. split.
  { unfold get in Hg. destruct (items (chunks (sampler c))) eqn:Hi;
      [reflexivity|discriminate]. }
  repeat split.
  - eapply exec_keeps_stopped; [eassumption|eassumption|]. now split.
  - destruct (exec_keeps_stopped _ _ _ H H0) as [Hr Hp]; [now split|].
    unfold run_step. rewrite Hp, Hr. eexists. repeat split.
  - intros Hprod.
    destruct (exec_keeps_stopped _ _ _ H H0) as [Hr Hp]; [now split|].
    rewrite Hprod. simpl. rewrite Hr. eexists. repeat split.
Qed.

Lemma get_timeout_stops_writer_witness :
  play_thread (run_from booted before_starving) = Run114 /\
  items (chunks (sampler (run_from booted before_starving))) = [] /\
  running (sampler (run_from booted starving)) = false /\
  callers (run_from booted starving)
    = callers (run_from booted before_starving) /\
  producer (run_from booted starving)
    = producer (run_from booted before_starving) /\
  forall sched c2,
    Step PlayThread ∉ sched ->
    exec sched (run_from booted starving) = Some c2 ->
    running (sampler c2) = false /\
    (exists c3, step (Step PlayThread) c2 = Some c3 /\
                play_thread c3 = RunExit /\ stream_open c3 = false /\
                step (Step PlayThread) c3 = None /\
                step Expire c3 = None) /\
    (producer c2 = Prod105 ->
     exists c4, step (Step ChunksProducer) c2 = Some c4 /\
                producer c4 = ProdExit /\
                step (Step ChunksProducer) c4 = None).
Proof.
  apply (get_timeout_stops_writer (run_from booted before_starving)
           (run_from booted starving)).
  vm_compute. reflexivity.
Defined.

Lemma step_blocked_for_good (a : action) (c c' : config) :
  of_thread a -> step a c = Some c' ->
  blocked_for_good c -> blocked_for_good c'.
Proof.
  intros Ha Hstep (Hprod & Hwait & Hcall & Hrun).
  destruct Ha as [->|[[| |i] ->]]; simpl in Hstep.
  - unfold run_timeout in Hstep.
    destruct (play_thread c); try discriminate.
    destruct (get (chunks (sampler c))); [discriminate|].
    injection Hstep as <-. repeat split; auto.
  - unfold run_step in Hstep.
    destruct Hrun as [Hp|[Hp|Hp]]; rewrite Hp in Hstep; [| |discriminate].
    + destruct (running (sampler c)); injection Hstep as <-;
        repeat split; auto.
    + destruct (get (chunks (sampler c))) as [[x q]|]; [|discriminate].
      injection Hstep as <-. repeat split; auto.
  - rewrite Hprod in Hstep. simpl in Hstep.
    destruct (decide (ChunksProducer ∈ chunk_available (sampler c)));
      [discriminate|contradiction].
  - rewrite Hcall in Hstep. discriminate.
Qed.

Lemma exec_blocked_for_good (sched : list action) :
  forall c c',
  Forall of_thread sched -> exec sched c = Some c' ->
  blocked_for_good c -> blocked_for_good c'.
Proof.
  induction sched as [|a sched IH]; intros c c' Hall H Hb; simpl in H.
  - injection H as <-. exact Hb.
  - apply Forall_cons in Hall as [Ha Hall].
    destruct (step a c) as [c1|] eqn:Hs; [|discriminate].
    apply (IH c1 c' Hall H). exact (step_blocked_for_good a c c1 Ha Hs Hb).
Qed.

(** The claim C5 as the spec has it (both loops terminate) fails: in the
    starving sampler the timeout clears [running] and [run] exits, but
    [chunks_producer] is waiting on the condition inside [next_chunks];
    whatever the existing threads do, it is still there, and never at the
    end of its loop. *)
Lemma producer_still_waiting_after_timeout :
  exec starving booted = Some (run_from booted starving) /\
  running (sampler (run_from booted starving)) = false /\
  (exists c', step (Step PlayThread) (run_from booted starving) = Some c' /\
              play_thread c' = RunExit) /\
  forall sched c',
    Forall of_thread sched ->
    exec sched (run_from booted starving) = Some c' ->
    producer c' = Prod96 /\ producer c' <> ProdExit.
Proof.
  split; [vm_compute; reflexivity|].
  split; [vm_compute; reflexivity|].
  split; [eexists; split; vm_compute; reflexivity|].
  intros sched c' Hall H.
  assert (Hb : blocked_for_good (run_from booted starving)).
  { unfold blocked_for_good.
    split; [vm_compute; reflexivity|].
    split; [|split; [vm_compute; reflexivity|left; vm_compute; reflexivity]].
    replace (chunk_available (sampler (run_from booted starving)))
      with [ChunksProducer] by (vm_compute; reflexivity).
    apply elem_of_cons. now left. }
  destruct (exec_blocked_for_good sched _ _ Hall H Hb) as (Hp & _).
  split; [exact Hp|]. rewrite Hp. discriminate.
Qed.

(** * Further properties of the methods and of the threads *)

(** ** A turn of [next_chunks] never raises *)










(** ** What a turn of [next_chunks] touches *)

Lemma list_remove_sublist (x : ref) (l l' : list ref) :
  list_remove x l = Some l' -> sublist l' l.
Proof.
  revert l'. induction l as [|y l IH]; intros l' H; simpl in H; [discriminate|].
  destruct (decide (y = x)) as [->|Hne].
  - injection H as <-. now apply sublist_cons.
  - destruct (list_remove x l) as [l''|]; [|discriminate].
    injection H as <-. apply sublist_skip. now apply IH.
Qed.

Lemma pull_heap_frame (ps : list ref) (acc : list chunk) (st : state)
  (r : ref) :
  r ∉ ps -> heap (final (pull ps acc st)) !! r = heap st !! r.
Proof.
  revert acc st. induction ps as [|s rest IH]; intros acc st Hr;
    [reflexivity|].
  apply not_elem_of_cons in Hr as [Hne Hr]. rewrite pull_cons.
  destruct (heap st !! s) as [o|] eqn:Hs; [|reflexivity].
  assert (Hstop : heap (stopped s st) !! r = heap st !! r).
  { unfold stopped; simpl. now rewrite lookup_alter_ne. }
  destruct (Sound.chunks o) as [|c more].
  - destruct (list_remove s (sounds st)) as [l|]; [|exact Hstop].
    rewrite IH by exact Hr. exact Hstop.
  - rewrite IH by exact Hr. unfold advanced; simpl.
    now rewrite lookup_insert_ne.
Qed.

Lemma pull_sounds_sublist (ps : list ref) (acc : list chunk) (st : state) :
  sublist (sounds (final (pull ps acc st))) (sounds st).
Proof.
  revert acc st. induction ps as [|s rest IH]; intros acc st;
    [reflexivity|].
  rewrite pull_cons.
  destruct (heap st !! s) as [o|]; [|reflexivity].
  destruct (Sound.chunks o) as [|c more].
  - destruct (list_remove s (sounds st)) as [l|] eqn:Hl; [|reflexivity].
    etransitivity; [apply IH|]. simpl. now apply (list_remove_sublist s).
  - etransitivity; [apply IH|]. reflexivity.
Qed.

Lemma pull_sounds_keep (ps : list ref) (acc : list chunk) (st : state)
  (r : ref) :
  r ∉ ps -> r ∈ sounds st -> r ∈ sounds (final (pull ps acc st)).
Proof.
  revert acc st. induction ps as [|s rest IH]; intros acc st Hr Hin;
    [exact Hin|].
  apply not_elem_of_cons in Hr as [Hne Hr]. rewrite pull_cons.
  destruct (heap st !! s) as [o|]; [|exact Hin].
  destruct (Sound.chunks o) as [|c more].
  - destruct (list_remove s (sounds st)) as [l|] eqn:Hl; [|exact Hin].
    apply IH; [exact Hr|]. simpl.
    destruct (list_remove_elem_of _ _ _ Hl) as (_ & _ & Hsup & _).
    now apply Hsup.
  - apply IH; [exact Hr|exact Hin].
Qed.

(** X3: a turn of [next_chunks] deals with the sounds of its snapshot only:
    a sound that is not registered, or that is registered with [playing] at
    [False], keeps its flag and its iterator, and stays in the list if it
    was there; and the turn never adds a sound to the list. *)
Theorem next_chunks_skips_not_playing (st : state) (r : ref) :
  r ∉ playing_sounds st ->
  heap (final (next_chunks_cycle st)) !! r = heap st !! r /\
  (r ∈ sounds (final (next_chunks_cycle st)) <-> r ∈ sounds st) /\
  sublist (sounds (final (next_chunks_cycle st))) (sounds st).
Proof.
  intros Hr. rewrite next_chunks_cycle_final.
  split; [now apply pull_heap_frame|]. split; [split|].
  - intros Hin. eapply elem_of_sublist; [exact Hin|].
    apply pull_sounds_sublist.
  - now apply pull_sounds_keep.
  - apply pull_sounds_sublist.
Qed.

Lemma next_chunks_skips_not_playing_witness :
  heap (final (next_chunks_cycle paused)) !! 1%nat = heap paused !! 1%nat /\
  (1%nat ∈ sounds (final (next_chunks_cycle paused))
   <-> 1%nat ∈ sounds paused) /\
  sublist (sounds (final (next_chunks_cycle paused))) (sounds paused).
Proof.
  apply (next_chunks_skips_not_playing paused 1%nat).
  change (playing_sounds paused) with [0%nat].
  intros H. apply list_elem_of_singleton in H. discriminate.
Defined.

(** ** A turn of [next_chunks] in general *)








(** On [ending] the turn mixes the chunk of sound 0 alone, drops sound 1
    and sets the event. *)
Example ending_turn :
  exists st',
    next_chunks_cycle ending = Ok (Some [1; 1]%Q) st' /\
    sounds st' = [0%nat] /\ is_playing st' 1%nat = false /\
    is_done st' = true.
Proof. eexists. split; [vm_compute; reflexivity|]. repeat split. Qed.

(** ** Waiting for a sound *)

Lemma remove_chunk_available (sound : ref) (st : state) :
  chunk_available (final (remove sound st)) = chunk_available st.
Proof.
  rewrite remove_spec. now destruct (list_remove sound (sounds st)).
Qed.

Lemma pull_chunk_available (ps : list ref) (acc : list chunk) (st : state) :
  chunk_available (final (pull ps acc st)) = chunk_available st.
Proof.
  revert acc st. induction ps as [|s rest IH]; intros acc st; [reflexivity|].
  rewrite pull_cons.
  destruct (heap st !! s) as [o|]; [|reflexivity].
  destruct (Sound.chunks o) as [|c more].
  - destruct (list_remove s (sounds st)) as [l|]; [|reflexivity].
    now rewrite IH.
  - now rewrite IH.
Qed.

Lemma caller_step_chunk_available pc s pc' s' :
  caller_step pc s = Some (pc', s') ->
  (forall r, pc = Play63 r ->
     chunk_available s' = tail (chunk_available s) /\ r ∈ sounds s') /\
  ((forall r, pc <> Play63 r) -> chunk_available s' = chunk_available s).
Proof.
  destruct pc as [r|r|r|r|r|r|r| |e]; simpl; intros H; try discriminate;
    (split; [intros r' Hr'; try discriminate|intros Hne]).
  - injection H as <- <-. reflexivity.
  - unfold play_check_sr, bind, sound_of, gets in H.
    destruct (heap s !! r) as [o|]; simpl in H;
      [destruct (negb (sr s =? Sound.sr o))|];
      injection H as <- <-; reflexivity.
  - injection H as <- <-. reflexivity.
  - pose proof (remove_chunk_available r s) as Hd.
    destruct (remove r s); injection H as <- <-; exact Hd.
  - injection Hr' as <-. injection H as <- <-. simpl.
    split; [reflexivity|]. apply elem_of_app. right.
    apply list_elem_of_singleton. reflexivity.
  - now destruct (Hne r).
  - destruct (is_done s); [injection H as <- <-; reflexivity|discriminate].
  - pose proof (remove_chunk_available r s) as Hd.
    destruct (remove r s); injection H as <- <-; exact Hd.
Qed.

Lemma step_waiters_ok (a : action) (c c' : config) :
  step a c = Some c' -> waiters_ok c -> waiters_ok c'.
Proof.
  intros Hstep [Hw Hrun].
  destruct a as [r|r|[| |i]|]; simpl in Hstep.
  - injection Hstep as <-. now split.
  - injection Hstep as <-. now split.
  - unfold run_step in Hstep.
    destruct (play_thread c) eqn:Hpc; try discriminate.
    + injection Hstep as <-. split; simpl; [exact Hw|]. intros _. auto.
    + injection Hstep as <-. split; simpl.
      * left. destruct Hw as [Hw|[_ Hp]]; [exact Hw|].
        rewrite Hrun in Hp by auto. discriminate.
      * intros [H|H]; discriminate.
    + injection Hstep as <-. split; simpl; [exact Hw|].
      intros [H|H]; discriminate.
    + destruct (running (sampler c)); injection Hstep as <-;
        (split; simpl; [exact Hw|intros [H|H]; discriminate]).
    + destruct (get (chunks (sampler c))) as [[x q]|]; [|discriminate].
      injection Hstep as <-. split; simpl; [exact Hw|].
      intros [H|H]; discriminate.
  - assert (Hstarted : ~ (play_thread c = Run102 \/ play_thread c = Run108)
                       \/ producer c = ProdNotStarted).
    { destruct (play_thread c); auto; left; intros [H|H]; discriminate. }
    destruct (producer c) eqn:Hpc; simpl in Hstep; try discriminate.
    + injection Hstep as <-. split; simpl.
      * left. destruct Hw as [Hw|[_ Hp]]; [exact Hw|discriminate].
      * intros H. destruct Hstarted as [Hn|Hn]; [now destruct Hn|discriminate].
    + assert (Hempty : chunk_available (sampler c) = []).
      { destruct Hw as [Hw|[_ Hp]]; [exact Hw|discriminate]. }
      pose proof (next_chunks_cycle_final (sampler c)) as Hfin.
      pose proof (pull_chunk_available (playing_sounds (sampler c)) []
                    (sampler c)) as Hca.
      rewrite <- Hfin, Hempty in Hca.
      destruct (next_chunks_cycle (sampler c)) as [[x|] s'|e s'];
        injection Hstep as <-; simpl in *; (split; simpl;
          [|intros H; destruct Hstarted as [Hn|Hn];
            [now destruct Hn|discriminate]]).
      * now left.
      * right. rewrite Hca. now split.
      * now left.
    + destruct (decide (ChunksProducer ∈ chunk_available (sampler c)))
        as [|Hno]; [discriminate|].
      injection Hstep as <-. split; simpl.
      * left. destruct Hw as [Hw|[Hw _]]; [exact Hw|].
        exfalso. apply Hno. rewrite Hw. apply elem_of_cons. now left.
      * intros H. destruct Hstarted as [Hn|Hn]; [now destruct Hn|discriminate].
    + destruct (put c0 (chunks (sampler c))); [|discriminate].
      injection Hstep as <-. split; simpl.
      * left. destruct Hw as [Hw|[_ Hp]]; [exact Hw|discriminate].
      * intros H. destruct Hstarted as [Hn|Hn]; [now destruct Hn|discriminate].
  - destruct (callers c !! i) as [pc|]; [|discriminate].
    destruct (caller_step pc (sampler c)) as [[pc' s']|] eqn:Hc; [|discriminate].
    injection Hstep as <-. split; simpl; [|exact Hrun].
    destruct (caller_step_chunk_available _ _ _ _ Hc) as [H63 Hne].
    assert (Hcase : (exists r, pc = Play63 r) \/ forall r, pc <> Play63 r).
    { destruct pc; eauto; right; intros r' H'; discriminate. }
    destruct Hcase as [[r ->]|Hother].
    + destruct (H63 r eq_refl) as [-> _].
      destruct Hw as [->|[-> _]]; now left.
    + now rewrite (Hne Hother).
  - unfold run_timeout in Hstep.
    destruct (play_thread c) eqn:Hpc; try discriminate.
    destruct (get (chunks (sampler c))); [discriminate|].
    injection Hstep as <-. split; simpl; [exact Hw|].
    intros [H|H]; discriminate.
Qed.

Lemma reachable_waiters_ok (c : config) : reachable c -> waiters_ok c.
Proof.
  intros (c0 & sched & (sr_ & b & t & h & Hinit) & Hexec).
  assert (H0 : waiters_ok c0).
  { rewrite Sampler_init_spec in Hinit. simpl in Hinit.
    destruct (String.eqb b "dummy");
      [|destruct (String.eqb b "sounddevice"); [|discriminate]];
      injection Hinit as <-; split; simpl; auto. }
  clear Hinit. revert c0 Hexec H0.
  induction sched as [|a sched IH]; intros c0 Hexec H0; simpl in Hexec.
  - now injection Hexec as <-.
  - destruct (step a c0) as [c1|] eqn:Hs; [|discriminate].
    apply (IH c1 Hexec). exact (step_waiters_ok _ _ _ Hs H0).
Qed.

Lemma silent_reachable : reachable (run_from booted silent).
Proof.
  exists booted, silent. split; [exact booted_constructed|].
  vm_compute. reflexivity.
Defined.

Lemma about_to_play_reachable : reachable (run_from booted about_to_play).
Proof.
  exists booted, about_to_play. split; [exact booted_constructed|].
  vm_compute. reflexivity.
Defined.

(** X5: when no registered sound is playing, the turn of [next_chunks] run
    by [chunks_producer] yields no chunk and changes nothing: the producer
    goes to sleep on the condition, as its only waiter, nothing is put in the
    queue, and the producer cannot move. *)
Theorem mixer_waits_when_silent (c : config) :
  reachable c ->
  producer c = Prod80 ->
  playing_sounds (sampler c) = [] ->
  exists c1,
    step (Step ChunksProducer) c = Some c1 /\
    producer c1 = Prod96 /\
    sampler c1 = set_chunk_available [ChunksProducer] (sampler c) /\
    callers c1 = callers c /\ written c1 = written c /\
    play_thread c1 = play_thread c /\
    step (Step ChunksProducer) c1 = None.
Proof.
  intros Hreach Hpc Hsilent.
  destruct (reachable_waiters_ok c Hreach) as [[Hw|[_ Hp]] _];
    [|congruence].
  assert (Hcyc : next_chunks_cycle (sampler c) = Ok None (sampler c)).
  { unfold next_chunks_cycle, bind, gets. now rewrite Hsilent. }
  simpl. rewrite Hpc. simpl. rewrite Hcyc, Hw. simpl.
  eexists. split; [reflexivity|]. simpl. repeat split.
Qed.

Lemma mixer_waits_when_silent_witness :
  exists c1,
    step (Step ChunksProducer) (run_from booted silent) = Some c1 /\
    producer c1 = Prod96 /\
    sampler c1
    = set_chunk_available [ChunksProducer] (sampler (run_from booted silent)) /\
    callers c1 = callers (run_from booted silent) /\
    written c1 = written (run_from booted silent) /\
    play_thread c1 = play_thread (run_from booted silent) /\
    step (Step ChunksProducer) c1 = None.
Proof.
  apply (mixer_waits_when_silent (run_from booted silent)).
  - exact silent_reachable.
  - vm_compute. reflexivity.
  - vm_compute. reflexivity.
Defined.

(** X6: a producer asleep on the condition is woken by one thing only, the
    [notify] of a call of [play] that has just appended its sound to the
    list (lines 63-67): no step of [run], no timeout, no [remove] and no
    other statement of [play] lets it move again. *)
Theorem only_play_wakes_mixer (c c' : config) (a : action) :
  reachable c ->
  producer c = Prod96 ->
  step (Step ChunksProducer) c = None ->
  step a c = Some c' ->
  is_Some (step (Step ChunksProducer) c') ->
  exists i r,
    a = Step (Caller i) /\ callers c !! i = Some (Play63 r) /\
    callers c' !! i = Some (Play68 r) /\
    r ∈ sounds (sampler c') /\ chunk_available (sampler c') = [].
Proof.
  intros Hreach Hpc Hblocked Hstep [c2 Hgo].
  destruct (reachable_waiters_ok c Hreach) as [Hw Hrun].
  assert (Hwait : chunk_available (sampler c) = [ChunksProducer]).
  { simpl in Hblocked. rewrite Hpc in Hblocked. simpl in Hblocked.
    destruct (decide (ChunksProducer ∈ chunk_available (sampler c)))
      as [Hin|]; [|discriminate].
    destruct Hw as [Hw|[Hw _]]; [|exact Hw].
    rewrite Hw in Hin. now apply elem_of_nil in Hin. }
  assert (Hsame : producer c' = producer c ->
                  chunk_available (sampler c') = chunk_available (sampler c) ->
                  False).
  { intros Hp Hca. simpl in Hgo. rewrite Hp, Hpc in Hgo. simpl in Hgo.
    rewrite Hca, Hwait in Hgo.
    destruct (decide (ChunksProducer ∈ [ChunksProducer])) as [|Hno];
      [discriminate|].
    apply Hno, elem_of_cons. now left. }
  destruct a as [r|r|[| |i]|]; simpl in Hstep.
  - injection Hstep as <-. now destruct Hsame.
  - injection Hstep as <-. now destruct Hsame.
  - exfalso. unfold run_step in Hstep.
    destruct (play_thread c) eqn:Hrpc; try discriminate.
    + rewrite Hrun in Hpc by auto. discriminate.
    + rewrite Hrun in Hpc by auto. discriminate.
    + injection Hstep as <-. now apply Hsame.
    + destruct (running (sampler c)); injection Hstep as <-; now apply Hsame.
    + destruct (get (chunks (sampler c))) as [[x q]|]; [|discriminate].
      injection Hstep as <-. now apply Hsame.
  - simpl in Hblocked. congruence.
  - destruct (callers c !! i) as [pc|] eqn:Hi; [|discriminate].
    destruct (caller_step pc (sampler c)) as [[pc' s']|] eqn:Hc; [|discriminate].
    injection Hstep as <-.
    destruct (caller_step_chunk_available _ _ _ _ Hc) as [H63 Hne].
    assert (Hcase : (exists r, pc = Play63 r) \/ forall r, pc <> Play63 r).
    { destruct pc; eauto; right; intros r' H'; discriminate. }
    destruct Hcase as [[r ->]|Hother].
    + exists i, r. destruct (H63 r eq_refl) as [Hca Hin].
      split; [reflexivity|]. split; [exact Hi|]. simpl.
      split; [|split; [exact Hin|now rewrite Hca, Hwait]].
      simpl in Hc. injection Hc as <- <-.
      apply list_lookup_insert_eq. now apply lookup_lt_Some in Hi.
    + exfalso. apply Hsame; [reflexivity|]. simpl. now apply Hne.
  - exfalso. unfold run_timeout in Hstep.
    destruct (play_thread c); try discriminate.
    destruct (get (chunks (sampler c))); [discriminate|].
    injection Hstep as <-. now apply Hsame.
Qed.

Lemma only_play_wakes_mixer_witness :
  exists i r,
    Step (Caller 0) = Step (Caller i) /\
    callers (run_from booted about_to_play) !! i = Some (Play63 r) /\
    callers (run_from booted (about_to_play ++ [Step (Caller 0)])) !! i
    = Some (Play68 r) /\
    r ∈ sounds (sampler (run_from booted
                           (about_to_play ++ [Step (Caller 0)]))) /\
    chunk_available
      (sampler (run_from booted (about_to_play ++ [Step (Caller 0)]))) = [].
Proof.
  apply (only_play_wakes_mixer (run_from booted about_to_play)
           (run_from booted (about_to_play ++ [Step (Caller 0)]))
           (Step (Caller 0))).
  - exact about_to_play_reachable.
  - vm_compute. reflexivity.
  - vm_compute. reflexivity.
  - vm_compute. reflexivity.
  - eexists. vm_compute. reflexivity.
Defined.

(** ** The range of the mix *)




(** X8: a sound that plays alone goes through unchanged: when the only
    playing sound is ready with [c], the turn of [next_chunks] returns a
    chunk of the length of [c] whose samples are those of [c]; no gain is
    applied. *)
Theorem solo_sound_unchanged (st : state) (r : ref) (c : chunk) :
  playing_sounds st = [r] ->
  ready st r c ->
  exists mixed st',
    next_chunks_cycle st = Ok (Some mixed) st' /\
    length mixed = length c /\
    (forall i, (i < length c)%nat -> (nth i mixed 0 == nth i c 0)%Q) /\
    sounds st' = sounds st /\ is_done st' = is_done st.
Proof.
  intros Hps Hready.
  destruct (pull_ready [r] [] st [c]) as (st' & Hp & Hso & Hd & _).
  { apply NoDup_singleton. }
  { constructor; [exact Hready|constructor]. }
  assert (Hall : Forall (fun x : chunk => length x = length c) [c]).
  { constructor; [reflexivity|constructor]. }
  destruct (numpy_mean_spec [c] (length c)) as [Hl Hnth];
    [discriminate|exact Hall|].
  exists (numpy_mean [c]), st'.
  unfold next_chunks_cycle, bind, gets. rewrite Hps, Hp. simpl app.
  split; [reflexivity|]. split; [exact Hl|]. split; [|now split].
  intros i Hi. rewrite (Hnth i Hi). simpl. field.
Qed.

Lemma solo_sound_unchanged_witness :
  exists mixed st',
    next_chunks_cycle paused = Ok (Some mixed) st' /\
    length mixed = length [1; 1]%Q /\
    (forall i, (i < length [1; 1]%Q)%nat ->
       (nth i mixed 0 == nth i [1; 1]%Q 0)%Q) /\
    sounds st' = sounds paused /\ is_done st' = is_done paused.
Proof.
  apply (solo_sound_unchanged paused 0%nat [1; 1]%Q).
  - reflexivity.
  - exists (Sound.mk 8000 true (tone 1 5)). split; reflexivity.
Defined.

(** ** From the queue to the device *)

(** X9: chunks reach the device in the order in which they were mixed, none
    lost and none twice.  Along any step, the chunks written followed by
    those in the queue stay as they are, except that the [put] of
    [chunks_producer] appends the chunk it holds; what has been written
    changes only by [run] moving the oldest chunk of the queue to its
    end. *)
Theorem pipe_is_fifo (a : action) (c c' : config) :
  step a c = Some c' ->
  (pipe c' = pipe c \/
   exists x, a = Step ChunksProducer /\ producer c = Prod106 x /\
             pipe c' = pipe c ++ [x]) /\
  (written c' = written c \/
   exists x, a = Step PlayThread /\ play_thread c = Run114 /\
             items (chunks (sampler c)) = x :: items (chunks (sampler c')) /\
             written c' = written c ++ [x]).
Proof.
  intros Hstep. unfold pipe.
  destruct a as [r|r|[| |i]|]; simpl in Hstep.
  - injection Hstep as <-. split; now left.
  - injection Hstep as <-. split; now left.
  - unfold run_step in Hstep.
    destruct (play_thread c) eqn:Hpc; try discriminate;
      try (injection Hstep as <-; split; now left).
    + destruct (running (sampler c)); injection Hstep as <-; split; now left.
    + unfold get in Hstep.
      destruct (items (chunks (sampler c))) as [|x rest] eqn:Hi;
        [discriminate|].
      injection Hstep as <-. simpl. split.
      * left. now rewrite <- app_assoc.
      * right. exists x. repeat split.
  - destruct (producer c) eqn:Hpc; simpl in Hstep; try discriminate.
    + injection Hstep as <-. split; now left.
    + pose proof (next_chunks_cycle_same_device (sampler c)) as (Hd & _).
      destruct (next_chunks_cycle (sampler c)) as [[x|] s'|e s'];
        injection Hstep as <-; simpl in *; rewrite Hd; split; now left.
    + destruct (decide (ChunksProducer ∈ chunk_available (sampler c)));
        [discriminate|].
      injection Hstep as <-. split; now left.
    + unfold put in Hstep. destruct (full (chunks (sampler c)));
        [discriminate|].
      injection Hstep as <-. simpl. split; [right|now left].
      exists c0. repeat split. now rewrite app_assoc.
  - destruct (callers c !! i) as [pc|]; [|discriminate].
    destruct (caller_step pc (sampler c)) as [[pc' s']|] eqn:Hc; [|discriminate].
    injection Hstep as <-. simpl.
    destruct (caller_step_same_device _ _ _ _ Hc) as (Hd & _).
    rewrite Hd. split; now left.
  - unfold run_timeout in Hstep.
    destruct (play_thread c); try discriminate.
    destruct (get (chunks (sampler c))); [discriminate|].
    injection Hstep as <-. split; now left.
Qed.

Lemma pipe_is_fifo_witness :
  (pipe (run_from booted (queue_full ++ [Step PlayThread; Step PlayThread]))
   = pipe (run_from booted (queue_full ++ [Step PlayThread])) \/
   exists x, Step PlayThread = Step ChunksProducer /\
             producer (run_from booted (queue_full ++ [Step PlayThread]))
             = Prod106 x /\
             pipe (run_from booted
                     (queue_full ++ [Step PlayThread; Step PlayThread]))
             = pipe (run_from booted (queue_full ++ [Step PlayThread]))
               ++ [x]) /\
  (written (run_from booted
              (queue_full ++ [Step PlayThread; Step PlayThread]))
   = written (run_from booted (queue_full ++ [Step PlayThread])) \/
   exists x, Step PlayThread = Step PlayThread /\
             play_thread (run_from booted (queue_full ++ [Step PlayThread]))
             = Run114 /\
             items (chunks (sampler (run_from booted
                                       (queue_full ++ [Step PlayThread]))))
             = x :: items (chunks (sampler
                   (run_from booted
                      (queue_full ++ [Step PlayThread; Step PlayThread])))) /\
             written (run_from booted
                        (queue_full ++ [Step PlayThread; Step PlayThread]))
             = written (run_from booted (queue_full ++ [Step PlayThread]))
               ++ [x]).
Proof.
  apply (pipe_is_fifo (Step PlayThread)
           (run_from booted (queue_full ++ [Step PlayThread]))
           (run_from booted
              (queue_full ++ [Step PlayThread; Step PlayThread]))).
  vm_compute. reflexivity.
Defined.

(** ** The stream and the end of [run] *)







(** ** The completion event, again *)

Lemma pull_is_done_kept (ps : list ref) (acc : list chunk) (st : state) :
  is_done st = true -> is_done (final (pull ps acc st)) = true.
Proof.
  revert acc st. induction ps as [|s rest IH]; intros acc st H; [exact H|].
  rewrite pull_cons.
  destruct (heap st !! s) as [o|]; [|exact H].
  destruct (Sound.chunks o) as [|c more].
  - destruct (list_remove s (sounds st)) as [l|]; [|exact H].
    now apply IH.
  - now apply IH.
Qed.

(** X11: the completion event goes from set to clear in one place only, the
    first statement of [play] (line 56); [remove], the mixer, [run] and the
    rest of [play] never clear it. *)
Theorem is_done_cleared_by_play_only (a : action) (c c' : config) :
  step a c = Some c' ->
  is_done (sampler c) = true ->
  is_done (sampler c') = false ->
  exists i r, a = Step (Caller i) /\ callers c !! i = Some (Play56 r) /\
              callers c' !! i = Some (Play57 r).
Proof.
  intros Hstep Hyes Hno.
  destruct a as [r|r|[| |i]|]; simpl in Hstep.
  - injection Hstep as <-. simpl in Hno. congruence.
  - injection Hstep as <-. simpl in Hno. congruence.
  - rewrite (run_step_is_done _ _ Hstep) in Hno. congruence.
  - exfalso. destruct (producer c) eqn:Hpc; simpl in Hstep; try discriminate.
    + injection Hstep as <-. simpl in Hno. congruence.
    + pose proof (next_chunks_cycle_final (sampler c)) as Hfin.
      pose proof (pull_is_done_kept (playing_sounds (sampler c)) []
                    (sampler c) Hyes) as Hk.
      rewrite <- Hfin in Hk.
      destruct (next_chunks_cycle (sampler c)) as [[x|] s'|e s'];
        injection Hstep as <-; simpl in *; congruence.
    + destruct (decide (ChunksProducer ∈ chunk_available (sampler c)));
        [discriminate|].
      injection Hstep as <-. simpl in Hno. congruence.
    + destruct (put c0 (chunks (sampler c))); [|discriminate].
      injection Hstep as <-. simpl in Hno. congruence.
  - destruct (callers c !! i) as [pc|] eqn:Hi; [|discriminate].
    destruct (caller_step pc (sampler c)) as [[pc' s']|] eqn:Hc; [|discriminate].
    injection Hstep as <-. simpl in Hno. exists i.
    assert (Hlt : (i < length (callers c))%nat) by now apply lookup_lt_Some in Hi.
    destruct pc as [r|r|r|r|r|r|r| |e]; simpl in Hc; try discriminate.
    + injection Hc as <- <-. exists r.
      split; [reflexivity|]. split; [exact Hi|].
      simpl. now apply list_lookup_insert_eq.
    + exfalso. unfold play_check_sr, bind, sound_of, gets in Hc.
      destruct (heap (sampler c) !! r) as [o|]; simpl in Hc;
        [destruct (negb (sr (sampler c) =? Sound.sr o))|];
        injection Hc as <- <-; congruence.
    + exfalso. injection Hc as <- <-. congruence.
    + exfalso. rewrite remove_spec in Hc.
      destruct (list_remove r (sounds (sampler c)));
        injection Hc as <- <-; simpl in Hno; congruence.
    + exfalso. injection Hc as <- <-. simpl in Hno. congruence.
    + exfalso. rewrite Hyes in Hc. injection Hc as <- <-. congruence.
    + exfalso. rewrite remove_spec in Hc.
      destruct (list_remove r (sounds (sampler c)));
        injection Hc as <- <-; simpl in Hno; congruence.
  - rewrite (run_timeout_is_done _ _ Hstep) in Hno. congruence.
Qed.

Lemma is_done_cleared_by_play_only_witness :
  exists i r,
    Step (Caller 1) = Step (Caller i) /\
    callers (run_from booted (play_three ++ [CallPlay 0%nat])) !! i
    = Some (Play56 r) /\
    callers (run_from booted
               (play_three ++ [CallPlay 0%nat; Step (Caller 1)])) !! i
    = Some (Play57 r).
Proof.
  apply (is_done_cleared_by_play_only (Step (Caller 1))
           (run_from booted (play_three ++ [CallPlay 0%nat]))
           (run_from booted
              (play_three ++ [CallPlay 0%nat; Step (Caller 1)])));
    vm_compute; reflexivity.
Defined.

(** ** Registering and taking back *)

Lemma list_remove_app_last (x : ref) (l : list ref) :
  x ∉ l -> list_remove x (l ++ [x]) = Some l.
Proof.
  induction l as [|y l IH]; intros Hx; simpl.
  - destruct (decide (x = x)); [reflexivity|contradiction].
  - apply not_elem_of_cons in Hx as [Hne Hx].
    destruct (decide (y = x)) as [->|_]; [contradiction|].
    now rewrite IH.
Qed.

(** X12: [play] of a sound at the sampler's rate that is not registered
    returns no error: the sound is appended last to the list and marked as
    playing, its iterator untouched; the completion event is cleared and the
    longest waiter of the condition notified; no other sound, and neither
    the queue nor [running], is touched.  The caller then waits: it cannot
    move while the event is clear. *)
Theorem play_registers_new_sound (sound : ref) (st : state) (obj : Sound.t) :
  heap st !! sound = Some obj ->
  sr st = Sound.sr obj ->
  sound ∉ sounds st ->
  exists st',
    play_register sound st = Ok tt st' /\
    sounds st' = sounds st ++ [sound] /\
    heap st' !! sound = Some (Sound.set_playing true obj) /\
    (forall r, r <> sound -> heap st' !! r = heap st !! r) /\
    is_done st' = false /\
    chunk_available st' = tail (chunk_available st) /\
    same_device st st' /\
    caller_step (Play68 sound) st' = None.
Proof.
  intros Hobj Hsr Hout.
  rewrite (play_register_match _ _ _ Hobj Hsr), bool_decide_false
    by exact Hout.
  eexists. split; [reflexivity|]. simpl. repeat split.
  - now rewrite lookup_alter_eq, Hobj.
  - intros r Hne. now rewrite lookup_alter_ne.
Qed.

Lemma play_registers_new_sound_witness :
  exists st',
    play_register 0%nat (idle two_sounds) = Ok tt st' /\
    sounds st' = sounds (idle two_sounds) ++ [0%nat] /\
    heap st' !! 0%nat
    = Some (Sound.set_playing true (Sound.mk 8000 false (tone 1 5))) /\
    (forall r, r <> 0%nat -> heap st' !! r = heap (idle two_sounds) !! r) /\
    is_done st' = false /\
    chunk_available st' = tail (chunk_available (idle two_sounds)) /\
    same_device (idle two_sounds) st' /\
    caller_step (Play68 0%nat) st' = None.
Proof.
  apply (play_registers_new_sound 0%nat (idle two_sounds)
           (Sound.mk 8000 false (tone 1 5))).
  - reflexivity.
  - reflexivity.
  - simpl. apply not_elem_of_nil.
Defined.

(** X13: [remove] takes back what [play] has registered: after [play] of an
    unregistered sound at the sampler's rate and [remove] of that sound, the
    list of sounds is what it was and the sound is marked as not playing,
    its iterator and the other sounds untouched.  The completion event stays
    clear: the caller of [play] is still waiting. *)
Theorem remove_takes_back_play (sound : ref) (st : state) (obj : Sound.t) :
  heap st !! sound = Some obj ->
  sr st = Sound.sr obj ->
  sound ∉ sounds st ->
  exists st1 st2,
    play_register sound st = Ok tt st1 /\
    remove sound st1 = Ok tt st2 /\
    sounds st2 = sounds st /\
    heap st2 !! sound = Some (Sound.set_playing false obj) /\
    (forall r, r <> sound -> heap st2 !! r = heap st !! r) /\
    is_done st2 = false /\
    caller_step (Play68 sound) st2 = None.
Proof.
  intros Hobj Hsr Hout.
  rewrite (play_register_match _ _ _ Hobj Hsr), bool_decide_false
    by exact Hout.
  eexists. eexists. split; [reflexivity|].
  rewrite remove_spec. simpl. rewrite (list_remove_app_last _ _ Hout).
  split; [reflexivity|]. simpl. repeat split.
  - rewrite !lookup_alter_eq, Hobj. reflexivity.
  - intros r Hne. now rewrite !lookup_alter_ne.
Qed.

Lemma remove_takes_back_play_witness :
  exists st1 st2,
    play_register 0%nat (idle two_sounds) = Ok tt st1 /\
    remove 0%nat st1 = Ok tt st2 /\
    sounds st2 = sounds (idle two_sounds) /\
    heap st2 !! 0%nat
    = Some (Sound.set_playing false (Sound.mk 8000 false (tone 1 5))) /\
    (forall r, r <> 0%nat -> heap st2 !! r = heap (idle two_sounds) !! r) /\
    is_done st2 = false /\
    caller_step (Play68 0%nat) st2 = None.
Proof.
  apply (remove_takes_back_play 0%nat (idle two_sounds)
           (Sound.mk 8000 false (tone 1 5))).
  - reflexivity.
  - reflexivity.
  - simpl. apply not_elem_of_nil.
Defined.

(** ** One call of [play] at a time *)

Lemma call_inv_ext (st st' : state) (pc : caller_pc) :
  sounds st' = sounds st -> is_done st' = is_done st ->
  heap st' = heap st ->
  call_inv st pc -> call_inv st' pc.
Proof.
  intros Hs Hd Hh. unfold call_inv, played_out, is_playing.
  now rewrite Hs, Hd, Hh.
Qed.

Lemma call_inv_finished (st : state) (pc : caller_pc) :
  finishedb pc = true -> call_inv st pc -> sounds st = [].
Proof. destruct pc; simpl; intros H; try discriminate; auto. Qed.

Lemma pull_call_inv (st : state) (pc : caller_pc) :
  call_inv st pc -> call_inv (final (pull (playing_sounds st) [] st)) pc.
Proof.
  intros Hinv.
  assert (Hempty : sounds st = [] ->
                   final (pull (playing_sounds st) [] st) = st).
  { intros Hs. unfold playing_sounds. now rewrite Hs. }
  destruct pc as [r|r|r|r|r|r|r| |e]; simpl in Hinv;
    try contradiction; try (rewrite Hempty; [exact Hinv|tauto]).
  destruct Hinv as [(Hs & Hpl & Hd)|[Hs Hout]].
  2:{ rewrite Hempty by exact Hs. right. now split. }
    assert (Hps : playing_sounds st = [r]).
    { unfold playing_sounds. rewrite Hs.
      now rewrite filter_cons_True by exact Hpl. }
    rewrite Hps, pull_cons. unfold is_playing in Hpl.
    destruct (heap st !! r) as [obj|] eqn:Hobj; [|discriminate].
    destruct (Sound.chunks obj) as [|x more] eqn:Hch.
    + rewrite Hs. simpl. destruct (decide (r = r)); [|contradiction].
      simpl. right. split; [reflexivity|].
      exists (Sound.set_playing false obj). simpl.
      rewrite lookup_alter_eq, Hobj. now repeat split.
    + simpl. left. split; [exact Hs|]. split; [|exact Hd].
      unfold is_playing. simpl. now rewrite lookup_insert_eq.
Qed.

Lemma caller_step_call_inv (pc pc' : caller_pc) (s s' : state) :
  caller_step pc s = Some (pc', s') ->
  call_inv s pc -> call_inv s' pc' /\ finishedb pc = false.
Proof.
  destruct pc as [r|r|r|r|r|r|r| |e]; simpl; intros H Hinv;
    try discriminate; try contradiction.
  - injection H as <- <-. simpl. now repeat split.
  - destruct Hinv as [Hs Hd].
    unfold play_check_sr, bind, sound_of, gets in H.
    destruct (heap s !! r) as [o|] eqn:Ho; simpl in H;
      [destruct (negb (sr s =? Sound.sr o))|];
      injection H as <- <-; simpl; repeat split; auto.
  - destruct Hinv as (Hs & Hd & Hal).
    unfold play_is_member, gets in H. simpl in H.
    rewrite bool_decide_false in H.
    + injection H as <- <-. simpl. now repeat split.
    + rewrite Hs. apply not_elem_of_nil.
  - destruct Hinv as (Hs & Hd & [o Ho]).
    injection H as <- <-. simpl. split; [|reflexivity].
    left. rewrite Hs. split; [reflexivity|]. split; [|exact Hd].
    unfold is_playing. simpl. now rewrite lookup_alter_eq, Ho.
  - destruct (is_done s) eqn:Hd; [|discriminate].
    injection H as <- <-. simpl. split; [|reflexivity].
    destruct Hinv as [(_ & _ & Hd')|[Hs _]]; [congruence|exact Hs].
Qed.

Lemma step_serial_inv (a : action) (c c' : config) :
  allowed c a = true -> step a c = Some c' ->
  serial_inv c -> serial_inv c'.
Proof.
  intros Hall Hstep Hinv.
  assert (Hframe : forall s' pr pt so wr,
            sounds s' = sounds (sampler c) ->
            is_done s' = is_done (sampler c) ->
            heap s' = heap (sampler c) ->
            serial_inv (mkConfig s' (callers c) pr pt so wr)).
  { intros s' pr pt so wr Hs Hd Hh.
    destruct Hinv as [[Hc Hso]|(done & pc & Hc & Hdone & Hpc)].
    - left. simpl. now rewrite Hs.
    - right. exists done, pc. simpl. repeat split; auto.
      now apply (call_inv_ext (sampler c)). }
  destruct a as [r|r|[| |i]|]; simpl in Hstep, Hall.
  - injection Hstep as <-. right. exists (callers c), (Play56 r).
    simpl. repeat split; [exact Hall|].
    destruct Hinv as [[_ Hso]|(done & pc & Hc & Hdone & Hpc)]; [exact Hso|].
    rewrite Hc, forallb_app in Hall. simpl in Hall.
    apply andb_prop in Hall as [_ Hall]. apply andb_prop in Hall as [Hall _].
    now apply (call_inv_finished _ pc).
  - discriminate.
  - unfold run_step in Hstep.
    destruct (play_thread c); try discriminate;
      try (injection Hstep as <-; now apply Hframe).
    + destruct (running (sampler c)); injection Hstep as <-;
        now apply Hframe.
    + destruct (get (chunks (sampler c))) as [[x q]|]; [|discriminate].
      injection Hstep as <-. now apply Hframe.
  - destruct (producer c) eqn:Hpc; simpl in Hstep; try discriminate.
    + injection Hstep as <-. now apply Hframe.
    + pose proof (next_chunks_cycle_final (sampler c)) as Hfin.
      assert (Hcyc : forall s' pr,
                s' = final (pull (playing_sounds (sampler c)) [] (sampler c)) ->
                forall wt,
                serial_inv (set_producer pr
                              (set_sampler (set_chunk_available wt s') c))).
      { intros s' pr -> wt.
        destruct Hinv as [[Hc Hso]|(done & pc & Hc & Hdone & Hinv)].
        - left. simpl. split; [exact Hc|].
          unfold playing_sounds. now rewrite Hso.
        - right. exists done, pc. simpl. repeat split; auto.
          eapply call_inv_ext; [| | |apply (pull_call_inv _ _ Hinv)];
            reflexivity. }
      destruct (next_chunks_cycle (sampler c)) as [[x|] s'|e s'];
        injection Hstep as <-; simpl in Hfin.
      * apply (Hcyc s' (Prod106 x) Hfin (chunk_available s')).
      * apply (Hcyc s' Prod96 Hfin).
      * apply (Hcyc s' (ProdRaised e) Hfin (chunk_available s')).
    + destruct (decide (ChunksProducer ∈ chunk_available (sampler c)));
        [discriminate|].
      injection Hstep as <-. now apply Hframe.
    + destruct (put c0 (chunks (sampler c))); [|discriminate].
      injection Hstep as <-. now apply Hframe.
  - destruct (callers c !! i) as [pc|] eqn:Hi; [|discriminate].
    destruct (caller_step pc (sampler c)) as [[pc' s']|] eqn:Hc; [|discriminate].
    injection Hstep as <-.
    destruct Hinv as [[Hnil _]|(done & pc0 & Hcs & Hdone & Hpc)].
    { rewrite Hnil in Hi. discriminate. }
    assert (Hpos : i = length done /\ pc0 = pc).
    { rewrite Hcs in Hi.
      destruct (decide (i < length done)%nat) as [Hlt|Hge].
      - exfalso. rewrite lookup_app_l in Hi by exact Hlt.
        assert (Hf : finishedb pc = true).
        { rewrite forallb_forall in Hdone. apply Hdone.
          apply list_elem_of_In, list_elem_of_lookup. eauto. }
        destruct pc; simpl in Hf, Hc; discriminate.
      - rewrite lookup_app_r in Hi by lia.
        destruct (i - length done)%nat as [|k] eqn:Hk; simpl in Hi;
          [|discriminate].
        injection Hi as ->. split; [lia|reflexivity]. }
    destruct Hpos as [-> ->].
    destruct (caller_step_call_inv _ _ _ _ Hc Hpc) as [Hpc' _].
    right. exists done, pc'. simpl. rewrite Hcs.
    split; [|now split].
    rewrite insert_app_r_alt by lia. now rewrite Nat.sub_diag.
  - unfold run_timeout in Hstep.
    destruct (play_thread c); try discriminate.
    destruct (get (chunks (sampler c))); [discriminate|].
    injection Hstep as <-. now apply Hframe.
Qed.

Lemma exec_serial_inv (sched : list action) :
  forall c c', exec_serial sched c = Some c' ->
  serial_inv c -> serial_inv c'.
Proof.
  induction sched as [|a sched IH]; intros c c' H Hinv; simpl in H.
  - now injection H as <-.
  - destruct (allowed c a) eqn:Ha; [|discriminate].
    destruct (step a c) as [c1|] eqn:Hs; [|discriminate].
    apply (IH c1 c' H). exact (step_serial_inv a c c1 Ha Hs Hinv).
Qed.

(** X14: for a client that makes one call of [play] at a time (and never
    calls [remove]), the wait at the end of [play] does what its comment
    says: whatever the schedule, the caller gets past
    [self.is_done.wait()] only when its sound has been played to its end,
    is marked as not playing and has left the list. *)
Theorem serial_play_returns_after_end (sched : list action)
  (c0 c c' : config) (i : nat) (r : ref) :
  constructed c0 ->
  exec_serial sched c0 = Some c ->
  callers c !! i = Some (Play68 r) ->
  step (Step (Caller i)) c = Some c' ->
  callers c' !! i = Some Returned /\
  sampler c' = sampler c /\
  sounds (sampler c') = [] /\
  played_out (sampler c') r /\
  is_playing (sampler c') r = false.
Proof.
  intros (sr_ & b & t & h & Hinit) Hexec Hi Hstep.
  assert (H0 : serial_inv c0).
  { left. rewrite Sampler_init_spec in Hinit. simpl in Hinit.
    destruct (String.eqb b "dummy");
      [|destruct (String.eqb b "sounddevice"); [|discriminate]];
      injection Hinit as <-; now split. }
  pose proof (exec_serial_inv sched c0 c Hexec H0) as Hinv.
  assert (Hlt : (i < length (callers c))%nat) by now apply lookup_lt_Some in Hi.
  simpl in Hstep. rewrite Hi in Hstep. simpl in Hstep.
  destruct (is_done (sampler c)) eqn:Hd; [|discriminate].
  injection Hstep as <-. simpl.
  split; [now apply list_lookup_insert_eq|]. split; [reflexivity|].
  destruct Hinv as [[Hnil _]|(done & pc & Hcs & Hdone & Hpc)].
  { rewrite Hnil in Hi. discriminate. }
  assert (pc = Play68 r) as ->.
  { rewrite Hcs in Hi.
    destruct (decide (i < length done)%nat) as [Hl|Hge].
    - exfalso. rewrite lookup_app_l in Hi by exact Hl.
      rewrite forallb_forall in Hdone.
      assert (Hf : finishedb (Play68 r) = true).
      { apply Hdone, list_elem_of_In, list_elem_of_lookup. eauto. }
      discriminate.
    - rewrite lookup_app_r in Hi by lia.
      destruct (i - length done)%nat; simpl in Hi; [|discriminate].
      now injection Hi as ->. }
  simpl in Hpc. destruct Hpc as [(_ & _ & Hd')|[Hs Hout]]; [congruence|].
  split; [exact Hs|]. split; [exact Hout|].
  destruct Hout as (obj & Hobj & Hpl & _).
  unfold is_playing. now rewrite Hobj.
Qed.

Lemma serial_play_returns_after_end_witness :
  callers (run_from booted play_three) !! 0%nat = Some Returned /\
  sampler (run_from booted play_three)
  = sampler (run_from booted play_three_waiting) /\
  sounds (sampler (run_from booted play_three)) = [] /\
  played_out (sampler (run_from booted play_three)) 3%nat /\
  is_playing (sampler (run_from booted play_three)) 3%nat = false.
Proof.
  apply (serial_play_returns_after_end play_three_waiting booted
           (run_from booted play_three_waiting)
           (run_from booted play_three) 0%nat 3%nat).
  - exact booted_constructed.
  - vm_compute. reflexivity.
  - vm_compute. reflexivity.
  - vm_compute. reflexivity.
Defined.
